(** * json-viewer: the TypeScript interface generator

    A shallow embedding of [src/services/typeScriptGenerator.ts] (class
    [TypeScriptGenerator]) and the properties of its inference and
    deduplication engine.

    Conventions of the embedding.
    - A JavaScript string is a [string]; one [ascii] stands for one code
      unit.  Case mapping and white space are the ASCII ones.
    - The generator's four private fields form the record [generator]; every
      method that reads or writes them is a function in the monad [M], which
      threads the record and can raise a [TypeError].
    - [Map] and [Set] keep insertion order: they are association lists and
      duplicate-free lists.  A plain object used as a dictionary ([jsobj])
      additionally orders integer-like keys first and sees the members it
      inherits from [Object.prototype].
    - The methods are mutually recursive through values that are not
      sub-terms of the argument (the merged representative shape), so they
      recurse on a fuel counter; [generateFromJson] supplies a fuel computed
      from the depth of its input. *)

From Stdlib Require Import String Ascii List ZArith Bool Arith Lia DecimalString.
From Stdlib Require Import Permutation.
From Stdlib Require OrderedTypeEx DecimalNat.
Import ListNotations.
Local Open Scope list_scope.
Local Open Scope string_scope.

(** ** Strings as the code uses them *)

Module JsString.

Definition chars : string -> list ascii := list_ascii_of_string.
Definition ofChars : list ascii -> string := string_of_list_ascii.

Definition code (c : ascii) : nat := nat_of_ascii c.

Definition between (lo hi : nat) (c : ascii) : bool :=
  Nat.leb lo (code c) && Nat.leb (code c) hi.

Definition isDigit : ascii -> bool := between 48 57.
Definition isLower : ascii -> bool := between 97 122.
Definition isUpper : ascii -> bool := between 65 90.

(** [\s]: tab, line feed, vertical tab, form feed, carriage return, space. *)
Definition isSpace (c : ascii) : bool :=
  between 9 13 c || Nat.eqb (code c) 32.

(** [.] without the [s] flag: anything but a line terminator. *)
Definition isDot (c : ascii) : bool :=
  negb (Nat.eqb (code c) 10 || Nat.eqb (code c) 13).

Definition upperChar (c : ascii) : ascii :=
  if isLower c then ascii_of_nat (code c - 32) else c.
Definition lowerChar (c : ascii) : ascii :=
  if isUpper c then ascii_of_nat (code c + 32) else c.

Definition toLowerCase (s : string) : string := ofChars (map lowerChar (chars s)).

Fixpoint isPrefix (p s : list ascii) : bool :=
  match p, s with
  | [], _ => true
  | _ :: _, [] => false
  | a :: p', b :: s' => Ascii.eqb a b && isPrefix p' s'
  end.

Definition startsWith (s p : string) : bool := isPrefix (chars p) (chars s).
Definition endsWith (s suffix : string) : bool :=
  isPrefix (rev (chars suffix)) (rev (chars s)).

(** [s.slice(0, -n)] for [n > 0]. *)
Definition sliceEnd (s : string) (n : nat) : string :=
  ofChars (firstn (String.length s - n) (chars s)).

(** [s.slice(n)]. *)
Definition sliceFrom (s : string) (n : nat) : string := ofChars (skipn n (chars s)).

(** [s.charAt(0).toUpperCase() + s.slice(1)]. *)
Definition capitalize (s : string) : string :=
  match s with
  | EmptyString => EmptyString
  | String c r => String (upperChar c) r
  end.

(** [s.replace(/^p/, '')] for a literal [p]. *)
Definition dropPrefix (p s : string) : string :=
  if startsWith s p then sliceFrom s (String.length p) else s.

(** [s.replace(/p$/, '')] for a literal [p]. *)
Definition dropSuffix (p s : string) : string :=
  if endsWith s p then sliceEnd s (String.length p) else s.

Fixpoint dropWhile {A} (f : A -> bool) (l : list A) : list A :=
  match l with
  | [] => []
  | x :: r => if f x then dropWhile f r else l
  end.

(** [s.replace(/\d+$/, '')]. *)
Definition dropTrailingDigits (s : string) : string :=
  ofChars (rev (dropWhile isDigit (rev (chars s)))).

(** [s.trim()]. *)
Definition trim (s : string) : string :=
  ofChars (rev (dropWhile isSpace (rev (dropWhile isSpace (chars s))))).

(** [s.split(sep)] for a one-character separator. *)
Fixpoint split (sep : ascii) (s : string) : list string :=
  match s with
  | EmptyString => [EmptyString]
  | String c r =>
      if Ascii.eqb c sep then EmptyString :: split sep r
      else match split sep r with
           | h :: t => String c h :: t
           | [] => [String c EmptyString]
           end
  end.

Definition join (sep : string) (l : list string) : string := String.concat sep l.

(** Decimal rendering of a counter in a template literal. *)
Definition decimal (n : nat) : string := NilEmpty.string_of_uint (Nat.to_uint n).

Definition includes (l : list string) (x : string) : bool := existsb (String.eqb x) l.

Definition truthy (s : string) : bool := negb (String.eqb s "").

(** [Array.prototype.sort]: ECMAScript fixes the result for a consistent
    comparator (the stable sorted permutation) and leaves it to the
    implementation otherwise.  The model is the stable insertion sort,
    which calls [cmp pivot element] as V8's insertion step does. *)
Fixpoint insert {A} (cmp : A -> A -> Z) (pivot : A) (sorted : list A) : list A :=
  match sorted with
  | [] => [pivot]
  | e :: r => if (cmp pivot e <? 0)%Z then pivot :: e :: r else e :: insert cmp pivot r
  end.

Definition sortBy {A} (cmp : A -> A -> Z) (l : list A) : list A :=
  fold_left (fun acc x => insert cmp x acc) l [].

(** The default comparator of [sort()]: code-unit order. *)
Definition codeUnitCompare (a b : string) : Z :=
  match String.compare a b with Lt => (-1)%Z | Eq => 0%Z | Gt => 1%Z end.

Definition sort (l : list string) : list string := sortBy codeUnitCompare l.

End JsString.
Import JsString.

(** ** Results and name hints *)

Inductive result (A : Type) : Type :=
| Ok (a : A)
| TypeError (msg : string)
| OutOfFuel.
Arguments Ok {A} a.
Arguments TypeError {A} msg.
Arguments OutOfFuel {A}.

(** The members every plain object inherits from [Object.prototype]. *)
Definition protoKeys : list string :=
  [ "constructor"; "__defineGetter__"; "__defineSetter__"; "hasOwnProperty";
    "__lookupGetter__"; "__lookupSetter__"; "isPrototypeOf";
    "propertyIsEnumerable"; "toString"; "valueOf"; "__proto__"; "toLocaleString" ].

(** What is passed as [suggestedName?: string] at run time: a string, nothing,
    or a member of [Object.prototype] that leaked out of a dictionary lookup
    (a function, or the prototype itself: truthy, and without string methods). *)
Inductive nameHint : Type :=
| Name (s : string)
| NoName
| ProtoMember (key : string).

(** ** NameAllocator: cleaning *)

(** The shared singularisation ladder of [generateCleanInterfaceName] and
    [generateCleanChildName]. *)
Definition singularize (cleanName : string) : string :=
  if endsWith cleanName "s" && Nat.ltb 1 (String.length cleanName) then
    if endsWith cleanName "ies" then sliceEnd cleanName 3 ++ "y"
    else if endsWith cleanName "ouses" then sliceEnd cleanName 1
    else if endsWith cleanName "ses" || endsWith cleanName "xes" || endsWith cleanName "zes"
         then sliceEnd cleanName 2
    else if endsWith cleanName "ches" || endsWith cleanName "shes" then sliceEnd cleanName 2
    else if negb (endsWith cleanName "ss") then sliceEnd cleanName 1
    else cleanName
  else cleanName.

Definition generateCleanInterfaceName (suggestedName : nameHint) (isGeneric : bool)
  : result string :=
  match suggestedName with
  | NoName => Ok (if isGeneric then "Item" else "Interface")
  | Name "" => Ok (if isGeneric then "Item" else "Interface")
  | ProtoMember _ => TypeError "suggestedName.replace is not a function"
  | Name s =>
      let cleanName := dropSuffix "Type" (dropSuffix "Item" (dropSuffix "Interface" (dropPrefix "Root" s))) in
      let cleanName := singularize cleanName in
      let cleanName := capitalize cleanName in
      Ok (if truthy cleanName then cleanName else "Item")
  end.

Definition commonMappings : list (string * string) :=
  [ ("address", "Address"); ("location", "Location"); ("user", "User"); ("users", "User");
    ("author", "Author"); ("authors", "Author"); ("owner", "Owner"); ("owners", "Owner");
    ("settings", "Settings"); ("config", "Config"); ("configuration", "Configuration");
    ("metadata", "Metadata"); ("meta", "Meta"); ("item", "Item"); ("items", "Item");
    ("product", "Product"); ("products", "Product"); ("order", "Order"); ("orders", "Order");
    ("payment", "Payment"); ("payments", "Payment"); ("customer", "Customer");
    ("customers", "Customer"); ("contact", "Contact"); ("contacts", "Contact");
    ("contactInfo", "ContactInfo"); ("apiEndpoint", "ApiEndpoint");
    ("apiEndpoints", "ApiEndpoint") ].

Fixpoint assoc {V} (k : string) (l : list (string * V)) : option V :=
  match l with
  | [] => None
  | (k', v) :: r => if String.eqb k' k then Some v else assoc k r
  end.

(** [commonMappings] is an object literal: a lookup that finds no own entry
    falls through to [Object.prototype], whose members are truthy. *)
Definition generateCleanChildName (propertyName : string) : nameHint :=
  let cleanName := capitalize propertyName in
  let lowerProp := toLowerCase propertyName in
  match assoc lowerProp commonMappings with
  | Some mapped => Name mapped
  | None =>
      if includes protoKeys lowerProp then ProtoMember lowerProp
      else Name (singularize cleanName)
  end.

(** ** JavaScript values and containers *)

#[local] Set Warnings "-register-all".

(** A value as the generator can receive it.  The JSON kinds are
    [JNull], [JBoolean], [JNumber], [JString], [JArray] and [JObject];
    [JUndefined] and [JOther] (a function, symbol or bigint, with what
    [typeof] reports for it) are what [unknown] admits besides.  The entries
    of [JObject] are listed as [Object.entries] yields them; a number's
    payload is never inspected. *)
Inductive jsvalue : Type :=
| JNull
| JUndefined
| JBoolean (b : bool)
| JNumber (n : Z)
| JString (s : string)
| JArray (items : list jsvalue)
| JObject (entries : list (string * jsvalue))
| JOther (typeofTag : string).

Definition typeOf (v : jsvalue) : string :=
  match v with
  | JUndefined => "undefined"
  | JBoolean _ => "boolean"
  | JNumber _ => "number"
  | JString _ => "string"
  | JNull | JArray _ | JObject _ => "object"
  | JOther t => t
  end.

Definition dquote : string := String (ascii_of_nat 34) EmptyString.
Definition nl : string := String (ascii_of_nat 10) EmptyString.
Definition ch (s : string) : ascii :=
  match s with String c _ => c | EmptyString => ascii_of_nat 0 end.

(** *** [Map] and [Set]: insertion order, no prototype *)

Fixpoint mapSet {V} (k : string) (v : V) (m : list (string * V)) : list (string * V) :=
  match m with
  | [] => [(k, v)]
  | (k', v') :: r => if String.eqb k' k then (k, v) :: r else (k', v') :: mapSet k v r
  end.

Definition mapHas {V} (k : string) (m : list (string * V)) : bool :=
  match assoc k m with Some _ => true | None => false end.

Definition keys {V} (m : list (string * V)) : list string := map fst m.

Definition setAdd (x : string) (s : list string) : list string :=
  if includes s x then s else (s ++ [x])%list.

Definition setDelete (x : string) (s : list string) : list string :=
  filter (fun y => negb (String.eqb y x)) s.

(** *** Plain objects used as dictionaries *)

(** Own enumerable string-keyed properties, in the order [Object.keys]
    reports them: array indices ascending, then the rest by insertion. *)
Definition jsobj (V : Type) : Type := list (string * V).

Definition digitsValue (s : string) : N :=
  fold_left (fun acc c => (acc * 10 + N.of_nat (code c - 48))%N) (chars s) 0%N.

(** The canonical numeric strings below [2^32 - 1]. *)
Definition arrayIndex (k : string) : option N :=
  let cs := chars k in
  if forallb isDigit cs && negb (Nat.eqb (List.length cs) 0)
     && Nat.leb (List.length cs) 10
     && (Nat.eqb (List.length cs) 1 || negb (startsWith k "0"))
     && (digitsValue k <? 4294967295)%N
  then Some (digitsValue k) else None.

Fixpoint objInsertIndex {V} (i : N) (k : string) (v : V) (o : jsobj V) : jsobj V :=
  match o with
  | [] => [(k, v)]
  | (k', v') :: r =>
      match arrayIndex k' with
      | Some j => if (j <? i)%N then (k', v') :: objInsertIndex i k v r
                  else (k, v) :: o
      | None => (k, v) :: o
      end
  end.

(** [o[k] = v].  Assigning to ["__proto__"] runs the inherited setter and
    creates no own property. *)
Definition objSet {V} (k : string) (v : V) (o : jsobj V) : jsobj V :=
  if String.eqb k "__proto__" then o
  else if mapHas k o then mapSet k v o
  else match arrayIndex k with
       | Some i => objInsertIndex i k v o
       | None => (o ++ [(k, v)])%list
       end.

(** [o[k]]: an own property, else a member of [Object.prototype], else
    [undefined]. *)
Inductive lookup (V : Type) : Type :=
| Own (v : V)
| Inherited
| Absent.
Arguments Own {V} v.
Arguments Inherited {V}.
Arguments Absent {V}.

Definition objGet {V} (k : string) (o : jsobj V) : lookup V :=
  match assoc k o with
  | Some v => Own v
  | None => if includes protoKeys k then Inherited else Absent
  end.

(** ** A backtracking matcher for the one non-literal regular expression *)

Module Regex.

Inductive regex : Type :=
| Chr (p : ascii -> bool)
| Seq (r1 r2 : regex)
| Opt (r : regex)
| Star (r : regex)
| Group (n : nat) (r : regex)
| Eos.

Definition Plus (r : regex) : regex := Seq r (Star r).

Definition captures : Type := nat -> option string.
Definition cont : Type := list ascii -> captures -> option captures.

Definition noCaptures : captures := fun _ => None.

(** Greedy iteration; an iteration that consumes nothing is rejected, so
    the length of the input bounds the number of iterations. *)
Fixpoint star (step : list ascii -> captures -> cont -> option captures)
         (fuel : nat) (s : list ascii) (caps : captures) (k : cont) : option captures :=
  match fuel with
  | 0 => k s caps
  | S f =>
      match step s caps (fun s' caps' =>
               if Nat.ltb (List.length s') (List.length s)
               then star step f s' caps' k else None) with
      | Some c => Some c
      | None => k s caps
      end
  end.

Fixpoint run (r : regex) (s : list ascii) (caps : captures) (k : cont) : option captures :=
  match r with
  | Chr p => match s with
             | c :: s' => if p c then k s' caps else None
             | [] => None
             end
  | Seq a b => run a s caps (fun s1 c1 => run b s1 c1 k)
  | Opt a => match run a s caps k with
             | Some c => Some c
             | None => k s caps
             end
  | Star a => star (run a) (List.length s) s caps k
  | Group n a =>
      run a s caps (fun s' caps' =>
        k s' (fun m => if Nat.eqb m n
                       then Some (ofChars (firstn (List.length s - List.length s') s))
                       else caps' m))
  | Eos => match s with [] => k s caps | _ :: _ => None end
  end.

(** [line.match(r)] for an expression anchored with [^]. *)
Definition matchAnchored (r : regex) (line : string) : option captures :=
  run r (chars line) noCaptures (fun _ caps => Some caps).

Fixpoint seqs (l : list regex) : regex :=
  match l with
  | [] => Eos
  | [r] => r
  | r :: rest => Seq r (seqs rest)
  end.

Definition isChar (c : string) : ascii -> bool := Ascii.eqb (ch c).

End Regex.
Import Regex.

(** The expression of [parseInterfaceContent], with Q for the double quote:
    [/^\s*Q?([^Q?:]+)Q?(\?)?\s*:\s*(.+);?\s*$/] *)
Definition propertyLine : regex :=
  let quote := Chr (Ascii.eqb (ch dquote)) in
  let nameChar := Chr (fun c => negb (Ascii.eqb c (ch dquote) || isChar "?" c || isChar ":" c)) in
  seqs [ Star (Chr isSpace); Opt quote; Group 1 (Plus nameChar); Opt quote;
         Opt (Group 2 (Chr (isChar "?"))); Star (Chr isSpace); Chr (isChar ":");
         Star (Chr isSpace); Group 3 (Plus (Chr isDot)); Opt (Chr (isChar ";"));
         Star (Chr isSpace); Eos ].

Record prop : Type := mkProp { propType : string; propOptional : bool }.

Definition parseInterfaceContent (content : string) : jsobj prop :=
  fold_left
    (fun props line =>
       match matchAnchored propertyLine line with
       | Some caps =>
           match caps 1, caps 3 with
           | Some name, Some type =>
               objSet name
                 {| propType := trim (dropSuffix ";" type);
                    propOptional := match caps 2 with Some _ => true | None => false end |}
                 props
           | _, _ => props
           end
       | None => props
       end)
    (split (ch nl) content) [].

(** [parseUnionType]: the scan keeps a nesting depth, which may go negative. *)
Fixpoint scanUnion (cs : list ascii) (current : list ascii) (depth : Z) (types : list string)
  : list string :=
  let flush cur ts :=
    let t := trim (ofChars (rev cur)) in if truthy t then (ts ++ [t])%list else ts in
  match cs with
  | [] => flush current types
  | c :: r =>
      if isChar "(" c || isChar "[" c then scanUnion r (c :: current) (depth + 1)%Z types
      else if isChar ")" c || isChar "]" c then scanUnion r (c :: current) (depth - 1)%Z types
      else if isChar "|" c && (depth =? 0)%Z then scanUnion r [] depth (flush current types)
      else scanUnion r (c :: current) depth types
  end.

(** [type.replace(/^\(|\)$/g, '')]: a leading [(] and a trailing [)] go,
    each on its own. *)
Definition stripParens (type : string) : string :=
  let t := dropPrefix "(" type in dropSuffix ")" t.

Definition parseUnionType (type : string) : list string :=
  scanUnion (chars (stripParens type)) [] 0%Z [].

(** ** StructuralSignature *)

Definition isNullish (v : jsvalue) : bool :=
  match v with JNull | JUndefined => true | _ => false end.

(** [getSimpleType]: one level deep for objects, first element for arrays. *)
Fixpoint getSimpleType (value : jsvalue) : string :=
  match value with
  | JNull => "null"
  | JUndefined => "undefined"
  | JArray [] => "array"
  | JArray (first :: _) => getSimpleType first ++ "[]"
  | JObject _ => "object"
  | JBoolean _ | JNumber _ | JString _ | JOther _ => typeOf value
  end.

(** The filter [t !== 'missing' && t !== 'undefined']. *)
Definition notMarker (t : string) : bool :=
  negb (String.eqb t "missing") && negb (String.eqb t "undefined").

(** [propertyTypes] is only ever the record that [mergeObjectsWithUnionTypes]
    returns, in which every key of the representative shape is an own key
    (see [merged_keys_own]); the lookup is therefore the own-property one. *)
Definition structureType (propertyTypes : option (jsobj (list string)))
           (key : string) (value : jsvalue) : string :=
  match match propertyTypes with Some pts => assoc key pts | None => None end with
  | Some set =>
      let types := sort (filter notMarker set) in
      if Nat.ltb 1 (List.length types) then "(" ++ join "|" types ++ ")"
      else match types with
           | t :: _ => if truthy t then t else "unknown"
           | [] => "unknown"
           end
  | None => getSimpleType value
  end.

Definition generateInterfaceStructure (obj : list (string * jsvalue))
           (propertyTypes : option (jsobj (list string))) : string :=
  join ";" (sort (map (fun '(key, value) => key ++ ":" ++ structureType propertyTypes key value) obj)).

Definition generateInterfaceStructureFromProps (props : jsobj prop) : string :=
  join ";" (sort (map (fun '(key, p) => key ++ ":" ++ propType p) props)).

(** [const [key, type] = part.split(':'); if (key && type) props[key] = type]. *)
Definition parseStructure (structure : string) : jsobj string :=
  fold_left
    (fun props part =>
       match split (ch ":") part with
       | key :: type :: _ => if truthy key && truthy type then objSet key type props else props
       | _ => props
       end)
    (split (ch ";") structure) [].

Definition haveSamePropertyNames (set1 set2 : list string) : bool :=
  Nat.eqb (List.length set1) (List.length set2) && forallb (includes set2) set1.

Definition escapePropertyName (name : string) : string :=
  let start c := isLower c || isUpper c || isChar "_" c || isChar "$" c in
  let part c := start c || isDigit c in
  match chars name with
  | c :: r => if start c && forallb part r then name else dquote ++ name ++ dquote
  | [] => dquote ++ name ++ dquote
  end.

(** ** InterfaceRegistry: state and lookups *)

Record generator : Type := mkGenerator {
  interfaces : list (string * string);
  interfaceStructures : list (string * string);
  usedNames : list string;
  structureToNames : list (string * list string)
}.

Definition cleared : generator := mkGenerator [] [] [] [].

Fixpoint findExistingInterface (structures : list (string * string)) (structure : string)
  : option string :=
  match structures with
  | [] => None
  | (name, existingStructure) :: r =>
      if String.eqb existingStructure structure then Some name
      else findExistingInterface r structure
  end.

Fixpoint findSimilarLoop (structures : list (string * string)) (baseName : string)
         (newPropNames : list string) : option string :=
  match structures with
  | [] => None
  | (existingName, existingStructure) :: r =>
      if String.eqb (dropTrailingDigits existingName) baseName
         && haveSamePropertyNames newPropNames (keys (parseStructure existingStructure))
      then Some existingName
      else findSimilarLoop r baseName newPropNames
  end.

Definition findSimilarInterface (structures : list (string * string)) (structure : string)
           (suggestedName : nameHint) : result (option string) :=
  match suggestedName with
  | Name s =>
      Ok (findSimilarLoop structures (dropTrailingDigits s) (keys (parseStructure structure)))
  | NoName | ProtoMember _ => TypeError "suggestedName.replace is not a function"
  end.

(** The [while] of [ensureUniqueName]; it stops within [length usedNames]
    iterations, because the candidates are pairwise distinct. *)
Fixpoint firstFreeSuffix (used : list string) (baseName : string) (counter fuel : nat) : string :=
  let uniqueName := baseName ++ decimal counter in
  match fuel with
  | 0 => uniqueName
  | S f => if includes used uniqueName then firstFreeSuffix used baseName (S counter) f
           else uniqueName
  end.

Definition ensureUniqueName (used : list string) (baseName : string) : string :=
  if negb (includes used baseName) then baseName
  else firstFreeSuffix used baseName 2 (List.length used).

(** [if (name)] on a [string | null]. *)
Definition whenTruthy (o : option string) : option string :=
  match o with
  | Some s => if truthy s then Some s else None
  | None => None
  end.

(** The four writes that close step 3 of [generateObjectType]. *)
Definition register (uniqueName interfaceContent structure : string) (g : generator) : generator :=
  {| interfaces := mapSet uniqueName interfaceContent (interfaces g);
     interfaceStructures := mapSet uniqueName structure (interfaceStructures g);
     usedNames := setAdd uniqueName (usedNames g);
     structureToNames :=
       let names := match assoc structure (structureToNames g) with
                    | Some l => l
                    | None => []
                    end in
       mapSet structure (names ++ [uniqueName])%list (structureToNames g) |}.

(** The two writes that close [mergeInterfaces]. *)
Definition updateMerged (existingName newContent newStructure : string) (g : generator)
  : generator :=
  {| interfaces := mapSet existingName newContent (interfaces g);
     interfaceStructures := mapSet existingName newStructure (interfaceStructures g);
     usedNames := usedNames g;
     structureToNames := structureToNames g |}.

(** ** The generator monad *)

Definition M (A : Type) : Type := generator -> result (A * generator).

Definition ret {A} (a : A) : M A := fun g => Ok (a, g).
Definition bind {A B} (m : M A) (f : A -> M B) : M B :=
  fun g => match m g with
           | Ok (a, g') => f a g'
           | TypeError msg => TypeError msg
           | OutOfFuel => OutOfFuel
           end.
Definition throw {A} (msg : string) : M A := fun _ => TypeError msg.
Definition outOfFuel {A} : M A := fun _ => OutOfFuel.
Definition get : M generator := fun g => Ok (g, g).
Definition modify (f : generator -> generator) : M unit := fun g => Ok (tt, f g).
Definition lift {A} (r : result A) : M A :=
  fun g => match r with
           | Ok a => Ok (a, g)
           | TypeError msg => TypeError msg
           | OutOfFuel => OutOfFuel
           end.

Declare Scope gen_scope.
Delimit Scope gen_scope with gen.
Notation "x <- m ;; k" := (bind m (fun x => k))
  (at level 61, m at next level, right associativity) : gen_scope.
Notation "m ;; k" := (bind m (fun _ => k))
  (at level 61, right associativity) : gen_scope.
Local Open Scope gen_scope.

(** ** Field derivation (pure parts of the loops) *)

Fixpoint removeFirst (x : string) (l : list string) : list string :=
  match l with
  | [] => []
  | y :: r => if String.eqb y x then r else y :: removeFirst x r
  end.

Definition isArrayType (t : string) : bool := endsWith t "[]".

Definition hasNull (types : list string) : bool := includes types "null".
Definition hasRealType (types : list string) : bool :=
  existsb (fun t => negb (String.eqb t "null") && negb (String.eqb t "undefined")) types.

(** The branch [propertyTypes && propertyTypes[key]] of the field loop of
    [generateObjectType]: the rendered type and the optional flag. *)
Definition mergedField (types : list string) : string * bool :=
  let isOptional := includes types "undefined" || includes types "missing" in
  let actualTypes := filter notMarker types in
  let arrayTypes := filter isArrayType actualTypes in
  let actualTypes :=
    if Nat.ltb 1 (List.length arrayTypes) && includes arrayTypes "unknown[]"
    then removeFirst "unknown[]" actualTypes else actualTypes in
  let propertyType :=
    match actualTypes with
    | [] => "unknown"
    | [t] => t
    | _ => join " | " actualTypes
    end in
  if hasNull actualTypes && hasRealType actualTypes then (propertyType, false)
  else if isOptional && negb (includes actualTypes "undefined")
       then (propertyType ++ " | undefined", isOptional)
       else (propertyType, isOptional).

Definition fieldLine (key : string) (isOptional : bool) (propertyType : string) : string :=
  "  " ++ escapePropertyName key ++ (if isOptional then "?" else "") ++ ": " ++ propertyType ++ ";".

Definition interfaceText (name : string) (lines : list string) : string :=
  "export interface " ++ name ++ " {" ++ nl ++ join nl lines ++ nl ++ "}".

(** The branch [newPropertyTypes && newPropertyTypes[key]] of [mergeInterfaces]. *)
Definition mergedNewType (types : list string) : string * bool :=
  let isOptional := includes types "undefined" || includes types "missing" in
  let actualTypes := filter notMarker types in
  (match actualTypes with [] => "unknown" | _ => join " | " actualTypes end, isOptional).

(** The final shape of an array type, from the collected element types. *)
Definition arrayTypeOf (types : list string) : string :=
  match types with
  | [] => "unknown[]"
  | [t] => t ++ "[]"
  | _ =>
      let concreteTypes := filter (fun t => negb (String.eqb t "unknown")) types in
      match concreteTypes with
      | [] => "(" ++ join " | " types ++ ")[]"
      | [t] => t ++ "[]"
      | _ => "(" ++ join " | " concreteTypes ++ ")[]"
      end
  end.

(** ** ShapeMerger, array analysis and the registry decisions *)

Record merged : Type := mkMerged {
  shape : jsobj jsvalue;
  propertyTypes : jsobj (list string)
}.

(** The accumulators of [mergeObjectsWithUnionTypes]. *)
Record mergeAcc : Type := mkMergeAcc {
  accShape : jsobj jsvalue;
  accTypes : jsobj (list string);
  accOccurrences : jsobj nat
}.

(** [shape[key] === undefined || shape[key] === null || (empty array there
    and a non-empty array here)]. *)
Definition takesRepresentative (current : lookup jsvalue) (value : jsvalue) : bool :=
  match current with
  | Absent | Own JUndefined | Own JNull => true
  | Own (JArray []) => match value with JArray (_ :: _) => true | _ => false end
  | _ => false
  end.

Definition markMissing (absentFrom : string -> bool) (types : jsobj (list string))
  : jsobj (list string) :=
  map (fun '(key, set) => (key, if absentFrom key then setAdd "missing" set else set)) types.

Definition dropUnknownArray (set : list string) : list string :=
  let arrayTypes := filter isArrayType set in
  if Nat.ltb 1 (List.length arrayTypes) && includes arrayTypes "unknown[]"
  then setDelete "unknown[]" set else set.

Definition finishMerge (count : nat) (acc : mergeAcc) : merged :=
  let occurrences key := match assoc key (accOccurrences acc) with Some n => n | None => 0 end in
  let types := markMissing (fun key => Nat.ltb (occurrences key) count) (accTypes acc) in
  {| shape := accShape acc;
     propertyTypes := map (fun '(key, set) => (key, dropUnknownArray set)) types |}.

Section Host.

(** [String.prototype.localeCompare] of the host, which ECMA-402 leaves to
    the implementation and its locale. *)
Variable localeCompare : string -> string -> Z.

(** The comparator that [mergeInterfaces] sorts a union with. *)
Definition unionOrder (a b : string) : Z :=
  if String.eqb a "null" || String.eqb a "undefined" then 1%Z
  else if String.eqb b "null" || String.eqb b "undefined" then (-1)%Z
  else localeCompare a b.

(** The branch [if (mergedProps[key])] of [mergeInterfaces]. *)
Definition mergeProp (existing : prop) (newType : string) (isOptional : bool) : prop :=
  let existingTypes := parseUnionType (propType existing) in
  let newTypes := parseUnionType newType in
  let allTypes := fold_left (fun set t => setAdd t set) (existingTypes ++ newTypes)%list [] in
  let arrayTypes := filter isArrayType allTypes in
  let allTypes :=
    if Nat.ltb 1 (List.length arrayTypes) && includes arrayTypes "unknown[]"
    then setDelete "unknown[]" allTypes else allTypes in
  let sortedTypes := sortBy unionOrder allTypes in
  {| propType := join " | " sortedTypes;
     propOptional := if hasNull sortedTypes && hasRealType sortedTypes then false
                     else propOptional existing && isOptional |}.

Definition propLine (entry : string * prop) : string :=
  let '(key, p) := entry in fieldLine key (propOptional p) (propType p).

(** The element loop of [generateArrayType]; [nested] is the method itself,
    called on an element that is an array. *)
Fixpoint scanItems (nested : list jsvalue -> nameHint -> M string)
         (arr : list jsvalue) (suggestedName : nameHint)
         (primitiveTypes : list string) (objectShapes : list (list (string * jsvalue)))
  : M (list string * list (list (string * jsvalue))) :=
  match arr with
  | [] => ret (primitiveTypes, objectShapes)
  | item :: rest =>
      match item with
      | JNull => scanItems nested rest suggestedName (setAdd "null" primitiveTypes) objectShapes
      | JUndefined =>
          scanItems nested rest suggestedName (setAdd "undefined" primitiveTypes) objectShapes
      | JObject entries =>
          scanItems nested rest suggestedName primitiveTypes (objectShapes ++ [entries])%list
      | JArray items =>
          nestedArrayType <- nested items suggestedName ;;
          scanItems nested rest suggestedName (setAdd nestedArrayType primitiveTypes) objectShapes
      | JBoolean _ | JNumber _ | JString _ | JOther _ =>
          scanItems nested rest suggestedName (setAdd (typeOf item) primitiveTypes) objectShapes
      end
  end.

(** The field loop of step 3 of [generateObjectType]. *)
Fixpoint objectFields (generateType : jsvalue -> nameHint -> M string)
         (entries : list (string * jsvalue)) (propertyTypes : option (jsobj (list string)))
  : M (list string) :=
  match entries with
  | [] => ret []
  | (key, value) :: rest =>
      field <- match match propertyTypes with Some pts => assoc key pts | None => None end with
               | Some types => ret (mergedField types)
               | None =>
                   let isOptional := isNullish value in
                   let childName := generateCleanChildName key in
                   propertyType <- generateType value childName ;;
                   ret (propertyType, isOptional)
               end ;;
      lines <- objectFields generateType rest propertyTypes ;;
      ret (fieldLine key (snd field) (fst field) :: lines)
  end.

(** The property loop of [mergeInterfaces]. *)
Fixpoint mergeProps (generateType : jsvalue -> nameHint -> M string)
         (entries : list (string * jsvalue)) (newPropertyTypes : option (jsobj (list string)))
         (mergedProps : jsobj prop) : M (jsobj prop) :=
  match entries with
  | [] => ret mergedProps
  | (key, value) :: rest =>
      new <- match match newPropertyTypes with Some pts => assoc key pts | None => None end with
             | Some types => ret (mergedNewType types)
             | None =>
                 let isOptional := isNullish value in
                 let childName := generateCleanChildName key in
                 newType <- generateType value childName ;;
                 ret (newType, isOptional)
             end ;;
      match objGet key mergedProps with
      | Own existing =>
          mergeProps generateType rest newPropertyTypes
            (mapSet key (mergeProp existing (fst new) (snd new)) mergedProps)
      | Inherited => throw "Cannot read properties of undefined (reading 'replace')"
      | Absent =>
          mergeProps generateType rest newPropertyTypes
            (objSet key {| propType := fst new; propOptional := snd new |} mergedProps)
      end
  end.

(** The loop of [mergeObjectsWithUnionTypes] over the entries of one object. *)
Fixpoint mergeEntries (generateArrayType : list jsvalue -> nameHint -> M string)
         (generateObjectType : list (string * jsvalue) -> nameHint -> M string)
         (entries : list (string * jsvalue)) (seenKeys : list string) (acc : mergeAcc)
  : M (list string * mergeAcc) :=
  match entries with
  | [] => ret (seenKeys, acc)
  | (key, value) :: rest =>
      let seenKeys := setAdd key seenKeys in
      let valueTypeOf : M string :=
        match value with
        | JNull => ret "null"
        | JUndefined => ret "undefined"
        | JArray items => generateArrayType items (generateCleanChildName key)
        | JObject fields => generateObjectType fields (generateCleanChildName key)
        | JBoolean _ | JNumber _ | JString _ | JOther _ => ret (typeOf value)
        end in
      match objGet key (accTypes acc) with
      | Inherited =>
          valueTypeOf ;; throw "propertyTypes[key].add is not a function"
      | found =>
          let types0 := match found with Own _ => accTypes acc | _ => objSet key [] (accTypes acc) end in
          let occ0 := match found with Own _ => accOccurrences acc
                                  | _ => objSet key 0 (accOccurrences acc) end in
          let occ := match assoc key occ0 with
                     | Some n => mapSet key (S n) occ0
                     | None => occ0
                     end in
          valueType <- valueTypeOf ;;
          let types := match assoc key types0 with
                       | Some set => mapSet key (setAdd valueType set) types0
                       | None => types0
                       end in
          let shape := if takesRepresentative (objGet key (accShape acc)) value
                       then objSet key value (accShape acc) else accShape acc in
          mergeEntries generateArrayType generateObjectType rest seenKeys
            {| accShape := shape; accTypes := types; accOccurrences := occ |}
      end
  end.

Fixpoint mergeObjects (generateArrayType : list jsvalue -> nameHint -> M string)
         (generateObjectType : list (string * jsvalue) -> nameHint -> M string)
         (objects : list (list (string * jsvalue))) (acc : mergeAcc) : M mergeAcc :=
  match objects with
  | [] => ret acc
  | obj :: rest =>
      seen <- mergeEntries generateArrayType generateObjectType obj [] acc ;;
      let '(seenKeys, acc) := seen in
      mergeObjects generateArrayType generateObjectType rest
        {| accShape := accShape acc;
           accTypes := markMissing (fun key => negb (includes seenKeys key)) (accTypes acc);
           accOccurrences := accOccurrences acc |}
  end.

(** [suggestedName || this.generateCleanInterfaceName('Interface', true)] *)
Definition interfaceNameOf (suggestedName : nameHint) : result nameHint :=
  match suggestedName with
  | ProtoMember _ => Ok suggestedName
  | Name s =>
      if truthy s then Ok suggestedName
      else match generateCleanInterfaceName (Name "Interface") true with
           | Ok n => Ok (Name n)
           | TypeError msg => TypeError msg
           | OutOfFuel => OutOfFuel
           end
  | NoName =>
      match generateCleanInterfaceName (Name "Interface") true with
      | Ok n => Ok (Name n)
      | TypeError msg => TypeError msg
      | OutOfFuel => OutOfFuel
      end
  end.

Fixpoint generateType (fuel : nat) (value : jsvalue) (suggestedName : nameHint) : M string :=
  match fuel with
  | 0 => outOfFuel
  | S f =>
      match value with
      | JNull => ret "null"
      | JUndefined => ret "undefined"
      | JBoolean _ => ret "boolean"
      | JNumber _ => ret "number"
      | JString _ => ret "string"
      | JArray items => generateArrayType f items suggestedName
      | JObject entries => generateObjectType f entries suggestedName None
      | JOther _ => ret "unknown"
      end
  end

with generateArrayType (fuel : nat) (arr : list jsvalue) (suggestedName : nameHint)
  : M string :=
  match fuel with
  | 0 => outOfFuel
  | S f =>
      scanned <- scanItems (generateArrayType f) arr suggestedName [] [] ;;
      let '(types, objectShapes) := scanned in
      match objectShapes with
      | [] => ret (arrayTypeOf types)
      | firstObj :: others =>
          itemName <- lift (generateCleanInterfaceName suggestedName false) ;;
          let firstStructure := generateInterfaceStructure firstObj None in
          let allSame :=
            forallb (fun o => String.eqb (generateInterfaceStructure o None) firstStructure)
                    others in
          if allSame then
            objectType <- generateObjectType f firstObj (Name itemName) None ;;
            ret (arrayTypeOf (types ++ [objectType])%list)
          else
            mergedShape <- mergeObjectsWithUnionTypes f objectShapes ;;
            objectType <- generateObjectType f (shape mergedShape) (Name itemName)
                            (Some (propertyTypes mergedShape)) ;;
            ret (arrayTypeOf (types ++ [objectType])%list)
      end
  end

with generateObjectType (fuel : nat) (obj : list (string * jsvalue))
       (suggestedName : nameHint) (propertyTypes : option (jsobj (list string))) : M string :=
  match fuel with
  | 0 => outOfFuel
  | S f =>
      interfaceName <- lift (interfaceNameOf suggestedName) ;;
      let structure := generateInterfaceStructure obj propertyTypes in
      g <- get ;;
      match whenTruthy (findExistingInterface (interfaceStructures g) structure) with
      | Some existingName => ret existingName
      | None =>
          similarInterface <- lift (findSimilarInterface (interfaceStructures g) structure
                                      interfaceName) ;;
          match whenTruthy similarInterface with
          | Some similar => mergeInterfaces f similar obj propertyTypes
          | None =>
              match interfaceName with
              | Name baseName =>
                  let uniqueName := ensureUniqueName (usedNames g) baseName in
                  lines <- objectFields (generateType f) obj propertyTypes ;;
                  modify (register uniqueName (interfaceText uniqueName lines) structure) ;;
                  ret uniqueName
              | NoName | ProtoMember _ => throw "suggestedName.replace is not a function"
              end
          end
      end
  end

with mergeInterfaces (fuel : nat) (existingName : string) (newObj : list (string * jsvalue))
       (newPropertyTypes : option (jsobj (list string))) : M string :=
  match fuel with
  | 0 => outOfFuel
  | S f =>
      g <- get ;;
      match whenTruthy (assoc existingName (interfaces g)) with
      | None => ret existingName
      | Some existingContent =>
          let existingProps := parseInterfaceContent existingContent in
          mergedProps <- mergeProps (generateType f) newObj newPropertyTypes existingProps ;;
          let newContent := interfaceText existingName (map propLine mergedProps) in
          let newStructure := generateInterfaceStructureFromProps mergedProps in
          modify (updateMerged existingName newContent newStructure) ;;
          ret existingName
      end
  end

with mergeObjectsWithUnionTypes (fuel : nat) (objects : list (list (string * jsvalue)))
  : M merged :=
  match fuel with
  | 0 => outOfFuel
  | S f =>
      acc <- mergeObjects (generateArrayType f)
               (fun fields childName => generateObjectType f fields childName None)
               objects {| accShape := []; accTypes := []; accOccurrences := [] |} ;;
      ret (finishMerge (List.length objects) acc)
  end.

(** Nesting depth, and the fuel that the longest call chain per level needs. *)
Fixpoint depth (v : jsvalue) : nat :=
  match v with
  | JArray items => S (fold_right (fun item d => Nat.max (depth item) d) 0 items)
  | JObject entries => S (fold_right (fun '(_, value) d => Nat.max (depth value) d) 0 entries)
  | _ => 0
  end.

Definition fuelFor (json : jsvalue) : nat := 3 * depth json + 3.

Definition renderOutput (g : generator) (rootName rootType : string) : string :=
  let output :=
    fold_left (fun out '(_, content) => out ++ content ++ nl ++ nl) (rev (interfaces g)) "" in
  let output :=
    if negb (mapHas rootName (interfaces g))
    then output ++ "export type " ++ rootName ++ " = " ++ rootType ++ ";"
    else output in
  trim output.

(** The public entry point.  [rootName] defaults to ['RootInterface']. *)
Definition generateFromJson (json : jsvalue) (rootName : option string) : M string :=
  let rootName := match rootName with Some n => n | None => "RootInterface" end in
  modify (fun _ => cleared) ;;
  rootType <- generateType (fuelFor json) json (Name rootName) ;;
  g <- get ;;
  ret (renderOutput g rootName rootType).

End Host.

(** ** Reading a run *)

Definition outputOf (r : result (string * generator)) : result string :=
  match r with
  | Ok (out, _) => Ok out
  | TypeError msg => TypeError msg
  | OutOfFuel => OutOfFuel
  end.

Definition definitionsOf (r : result (string * generator)) : list (string * string) :=
  match r with Ok (_, g) => interfaces g | _ => [] end.

Definition signaturesOf (r : result (string * generator)) : list (string * string) :=
  match r with Ok (_, g) => interfaceStructures g | _ => [] end.

(** The emitted text: definitions separated by one empty line. *)
Definition listing (blocks : list string) : string := join (nl ++ nl) blocks.

(** The closed JSON variant, with the keys of every object unique. *)
Fixpoint isJson (v : jsvalue) : bool :=
  match v with
  | JNull | JBoolean _ | JNumber _ | JString _ => true
  | JUndefined | JOther _ => false
  | JArray items => forallb isJson items
  | JObject entries =>
      forallb (fun '(_, value) => isJson value) entries
      && (fix unique (ks : list string) : bool :=
            match ks with
            | [] => true
            | k :: r => negb (includes r k) && unique r
            end) (keys entries)
  end.

(** No object anywhere below: such a value is typed without touching the
    registry. *)
Fixpoint objectFree (v : jsvalue) : bool :=
  match v with
  | JObject _ => false
  | JArray items => forallb objectFree items
  | _ => true
  end.

(** The elements of an array that are objects, in order: [objectShapes]. *)
Fixpoint objectElements (arr : list jsvalue) : list (list (string * jsvalue)) :=
  match arr with
  | [] => []
  | JObject entries :: rest => entries :: objectElements rest
  | _ :: rest => objectElements rest
  end.

Definition sameStructure (a b : list (string * jsvalue)) : bool :=
  String.eqb (generateInterfaceStructure a None) (generateInterfaceStructure b None).

(** What an element that is not an object contributes to the element types
    of its array: a fixed label, or the type of the nested array. *)
Definition elementLabel (nested : list jsvalue -> nameHint -> M string)
           (suggestedName : nameHint) (arr : list jsvalue) (t : string) : Prop :=
  exists item,
    In item arr
    /\ match item with
       | JObject _ => False
       | JArray items => exists g0 g1, nested items suggestedName g0 = Ok (t, g1)
       | JNull => t = "null"
       | JUndefined => t = "undefined"
       | JBoolean _ | JNumber _ | JString _ | JOther _ => t = typeOf item
       end.


(** Every key of the representative shape has its set of types. *)
Definition covered (acc : mergeAcc) : Prop :=
  forall k, In k (keys (accShape acc)) -> In k (keys (accTypes acc)).

(** What each method needs, in terms of the depth of what it is given. *)
Definition enough (localeCompare : string -> string -> Z) (fuel : nat) : Prop :=
  (forall value hint g,
      3 * depth value + 1 <= fuel ->
      generateType localeCompare fuel value hint g <> OutOfFuel)
  /\ (forall arr hint g,
         3 * depth (JArray arr) <= fuel ->
         generateArrayType localeCompare fuel arr hint g <> OutOfFuel)
  /\ (forall obj hint pts g,
         3 * depth (JObject obj) <= fuel ->
         generateObjectType localeCompare fuel obj hint pts g <> OutOfFuel)
  /\ (forall obj hint pts g,
         (forall key, In key (keys obj) -> exists set, assoc key pts = Some set) ->
         2 <= fuel ->
         generateObjectType localeCompare fuel obj hint (Some pts) g <> OutOfFuel)
  /\ (forall name obj pts g,
         3 * depth (JObject obj) <= fuel + 1 ->
         mergeInterfaces localeCompare fuel name obj pts g <> OutOfFuel)
  /\ (forall name obj pts g,
         (forall key, In key (keys obj) -> exists set, assoc key pts = Some set) ->
         1 <= fuel ->
         mergeInterfaces localeCompare fuel name obj (Some pts) g <> OutOfFuel)
  /\ (forall objects g,
         1 <= fuel ->
         (forall obj, In obj objects -> 3 * depth (JObject obj) <= fuel + 2) ->
         mergeObjectsWithUnionTypes localeCompare fuel objects g <> OutOfFuel).

Module Examples.

Definition one : jsvalue := JNumber 1.

(** [[{a: 1}, {a: "x", b: 2}]] *)
Definition unionArray : jsvalue :=
  JArray [ JObject [("a", one)]; JObject [("a", JString "x"); ("b", JNumber 2)] ].

(** [[{a: 1}, {a: null}]] *)
Definition nullArray : jsvalue :=
  JArray [ JObject [("a", one)]; JObject [("a", JNull)] ].

(** [{a: {x: 1}, as: {x: null}}]: both children want the name [A]. *)
Definition similarPair : jsvalue :=
  JObject [ ("a", JObject [("x", one)]); ("as", JObject [("x", JNull)]) ].


(** [{a: {x: 1}, as: {x: null}, b: {x: 1}, bs: {x: null}}] *)
Definition twoMergedPairs : jsvalue :=
  JObject [ ("a", JObject [("x", one)]); ("as", JObject [("x", JNull)]);
            ("b", JObject [("x", one)]); ("bs", JObject [("x", JNull)]) ].


(** [[[{"a:b": 1}], [{"a:b": 1}, {"a:b": null}, {}]]] *)
Definition colonKeyArrays : jsvalue :=
  JArray [ JArray [ JObject [("a:b", one)] ];
           JArray [ JObject [("a:b", one)]; JObject [("a:b", JNull)]; JObject [] ] ].

(** [{constructor: {}}] *)
Definition constructorKey : jsvalue := JObject [("constructor", JObject [])].

End Examples.

(** * Further definitions, for the properties of the code beyond the runs above *)

(** [null] and [undefined], the labels that the comparator of
    [mergeInterfaces] sends to the end. *)
Definition nullish (t : string) : bool := String.eqb t "null" || String.eqb t "undefined".

Definition startsLower (s : string) : bool :=
  match s with
  | String c _ => isLower c
  | EmptyString => false
  end.

(** The registry as the writes of [generateObjectType] and [mergeInterfaces]
    keep it: definitions and signatures under the same names in the same
    order, every name once, non-empty and allocated. *)
Definition wellFormed (g : generator) : Prop :=
  keys (interfaces g) = keys (interfaceStructures g)
  /\ NoDup (keys (interfaces g))
  /\ incl (keys (interfaces g)) (usedNames g)
  /\ NoDup (usedNames g)
  /\ Forall (fun name => truthy name = true) (keys (interfaces g)).

(** What a method may do to the registry: add names, never drop one. *)
Definition extends (g g' : generator) : Prop :=
  incl (keys (interfaces g)) (keys (interfaces g'))
  /\ incl (usedNames g) (usedNames g')
  /\ (wellFormed g -> wellFormed g').

(** An array without its object elements, and with only the first of them. *)
Definition isObject (v : jsvalue) : bool :=
  match v with JObject _ => true | _ => false end.

Definition withoutObjects (arr : list jsvalue) : list jsvalue :=
  filter (fun item => negb (isObject item)) arr.

Fixpoint keepFirstObject (arr : list jsvalue) : list jsvalue :=
  match arr with
  | [] => []
  | item :: rest =>
      if isObject item then item :: withoutObjects rest else item :: keepFirstObject rest
  end.

(** The text of the definitions, as [generateFromJson] concatenates it. *)
Definition definitionsText (g : generator) : string :=
  fold_left (fun out '(_, content) => out ++ content ++ nl ++ nl) (rev (interfaces g)) "".

Definition rootNameOf (rootName : option string) : string :=
  match rootName with Some n => n | None => "RootInterface" end.

(** [propertyOccurrences[key]], read as a number, and the number of objects
    that have the key. *)
Definition occurrencesOf (key : string) (occurrences : jsobj nat) : nat :=
  match assoc key occurrences with Some n => n | None => 0 end.

Definition hasKey (key : string) (obj : list (string * jsvalue)) : bool :=
  includes (keys obj) key.

Definition countHaving (key : string) (objects : list (list (string * jsvalue))) : nat :=
  List.length (filter (hasKey key) objects).

(** The accumulators of [mergeObjectsWithUnionTypes] in step: the same keys
    in the same order, none of them a member of [Object.prototype]. *)
Definition inStep (acc : mergeAcc) : Prop :=
  keys (accShape acc) = keys (accTypes acc)
  /\ keys (accOccurrences acc) = keys (accTypes acc)
  /\ Forall (fun key => includes protoKeys key = false) (keys (accTypes acc)).













(** A key that a structure string carries: not empty, without colon or
    semicolon, and not [__proto__]. *)
Definition structureKey (key : string) : bool :=
  truthy key && negb (String.eqb key "__proto__")
  && forallb (fun c => negb (isChar ":" c || isChar ";" c)) (chars key).

(** [line.trimEnd()]. *)
Definition trimEnd (s : string) : string :=
  ofChars (rev (dropWhile isSpace (rev (chars s)))).

(** [formatCode]: the white space at the end of every line goes. *)
Definition formatCode (code : string) : string :=
  join nl (map trimEnd (split (ch nl) code)).

(** * Properties *)

(** Statements about one input are made for every host comparator where the
    run is stated as a theorem; the closed examples take the code-unit order
    for it, and none of them reaches a comparison of two labels by the
    host. *)

Import Examples.

(** ** Concrete runs *)

(** C8: the five rows of the singularisation table, through the cleaner used
    for property names and through the one used for array contexts. *)
Theorem clean_name_table :
  generateCleanChildName "items" = Name "Item" /\
  generateCleanChildName "categories" = Name "Category" /\
  generateCleanChildName "boxes" = Name "Box" /\
  generateCleanChildName "addresses" = Name "Address" /\
  generateCleanChildName "dishes" = Name "Dish" /\
  generateCleanInterfaceName (Name "items") false = Ok "Item" /\
  generateCleanInterfaceName (Name "categories") false = Ok "Category" /\
  generateCleanInterfaceName (Name "boxes") false = Ok "Box" /\
  generateCleanInterfaceName (Name "addresses") false = Ok "Address" /\
  generateCleanInterfaceName (Name "dishes") false = Ok "Dish".
Proof. repeat split; reflexivity. Qed.

(** C2, as the code has it: for [[{a: 1}, {a: "x", b: 2}]] one definition
    [Item] is emitted, with [a: number | string] required and
    [b?: number | undefined] optional, on every host and from every prior
    state of the generator. *)
Theorem union_merge_example (localeCompare : string -> string -> Z) (g : generator) :
  let r := generateFromJson localeCompare unionArray None g in
  outputOf r
  = Ok (listing [ interfaceText "Item" ["  a: number | string;"; "  b?: number | undefined;"];
                  "export type RootInterface = Item[];" ])
  /\ keys (definitionsOf r) = ["Item"].
Proof. split; vm_compute; reflexivity. Qed.

(** C2, refuted as stated: the optional field [b] of the merged definition
    is typed [number | undefined], not [number]. *)
Lemma union_merge_b_not_plain_number :
  exists content,
    assoc "Item" (definitionsOf (generateFromJson codeUnitCompare unionArray None cleared))
    = Some content
    /\ assoc "b" (parseInterfaceContent content)
       = Some {| propType := "number | undefined"; propOptional := true |}
    /\ "number | undefined" <> "number".
Proof.
  eexists; split; [vm_compute; reflexivity|].
  split; [vm_compute; reflexivity | discriminate].
Qed.

(** ** Reasoning in the generator monad *)

Lemma bind_Ok {A B} (m : M A) (f : A -> M B) (g : generator) (r : B * generator) :
  bind m f g = Ok r -> exists a g1, m g = Ok (a, g1) /\ f a g1 = Ok r.
Proof.
  unfold bind. destruct (m g) as [[a g1]| |]; try discriminate.
  intros H. exists a, g1. split; [reflexivity | exact H].
Qed.

Lemma lift_Ok {A} (r : result A) (g g' : generator) (a : A) :
  lift r g = Ok (a, g') -> r = Ok a /\ g' = g.
Proof.
  unfold lift. destruct r; try discriminate. intros H. inversion H. split; reflexivity.
Qed.

Lemma ret_Ok {A} (a b : A) (g g' : generator) : ret a g = Ok (b, g') -> b = a /\ g' = g.
Proof. unfold ret. intros H. inversion H. split; reflexivity. Qed.

(** Peel the binds of a successful computation, oldest first. *)
Ltac inv_bind H :=
  let a := fresh "a" in
  let g1 := fresh "g" in
  let H1 := fresh "H" in
  apply bind_Ok in H; destruct H as (a & g1 & H1 & H).

Tactic Notation "split_bind" hyp(H) "as" ident(a) ident(g) ident(E) :=
  apply bind_Ok in H; destruct H as (a & g & E & H).

Ltac inv_get H := cbv [get] in H; inversion H; subst; clear H.
Ltac inv_modify H := cbv [modify] in H; inversion H; subst; clear H.
Ltac inv_ret H := unfold ret in H; inversion H; subst; clear H.
Ltac inv_lift H := apply lift_Ok in H; destruct H as [H ?]; subst.

(** ** The registry lookups *)

Lemma whenTruthy_Some (o : option string) (s : string) :
  whenTruthy o = Some s -> o = Some s /\ truthy s = true.
Proof.
  destruct o as [t|]; simpl; [|discriminate].
  destruct (truthy t) eqn:E; [|discriminate]. intros H. inversion H. subst. split; auto.
Qed.

Lemma findExistingInterface_registered structures structure name :
  findExistingInterface structures structure = Some name -> In name (keys structures).
Proof.
  induction structures as [|[n s] r IH]; simpl; [discriminate|].
  destruct (String.eqb s structure).
  - intros H. inversion H. left. reflexivity.
  - intros H. right. apply IH, H.
Qed.

Lemma findSimilarLoop_registered structures baseName names name :
  findSimilarLoop structures baseName names = Some name -> In name (keys structures).
Proof.
  induction structures as [|[n s] r IH]; simpl; [discriminate|].
  destruct (_ && _).
  - intros H. inversion H. left. reflexivity.
  - intros H. right. apply IH, H.
Qed.

Lemma keys_mapSet_here {V} (k : string) (v : V) (m : list (string * V)) :
  In k (keys (mapSet k v m)).
Proof.
  induction m as [|[k' v'] r IH]; simpl; [left; reflexivity|].
  destruct (String.eqb k' k); simpl; [left; reflexivity | right; exact IH].
Qed.


Section Registry.

Variable localeCompare : string -> string -> Z.

Lemma generateObjectType_unfold f obj suggestedName pts :
  generateObjectType localeCompare (S f) obj suggestedName pts =
  (interfaceName <- lift (interfaceNameOf suggestedName) ;;
   let structure := generateInterfaceStructure obj pts in
   g <- get ;;
   match whenTruthy (findExistingInterface (interfaceStructures g) structure) with
   | Some existingName => ret existingName
   | None =>
       similarInterface <- lift (findSimilarInterface (interfaceStructures g) structure
                                   interfaceName) ;;
       match whenTruthy similarInterface with
       | Some similar => mergeInterfaces localeCompare f similar obj pts
       | None =>
           match interfaceName with
           | Name baseName =>
               let uniqueName := ensureUniqueName (usedNames g) baseName in
               lines <- objectFields (generateType localeCompare f) obj pts ;;
               modify (register uniqueName (interfaceText uniqueName lines) structure) ;;
               ret uniqueName
           | NoName | ProtoMember _ => throw "suggestedName.replace is not a function"
           end
       end
   end).
Proof. reflexivity. Qed.

Lemma mergeInterfaces_unfold f existingName newObj pts :
  mergeInterfaces localeCompare (S f) existingName newObj pts =
  (g <- get ;;
   match whenTruthy (assoc existingName (interfaces g)) with
   | None => ret existingName
   | Some existingContent =>
       let existingProps := parseInterfaceContent existingContent in
       mergedProps <- mergeProps localeCompare (generateType localeCompare f) newObj pts
                        existingProps ;;
       let newContent := interfaceText existingName (map (propLine) mergedProps) in
       let newStructure := generateInterfaceStructureFromProps mergedProps in
       modify (updateMerged existingName newContent newStructure) ;;
       ret existingName
   end).
Proof. reflexivity. Qed.

(** [mergeInterfaces] answers with the name it was given. *)
Lemma mergeInterfaces_name fuel existingName newObj pts g name g' :
  mergeInterfaces localeCompare fuel existingName newObj pts g = Ok (name, g') ->
  name = existingName.
Proof.
  destruct fuel as [|f]; [discriminate|].
  rewrite mergeInterfaces_unfold. intros H.
  inv_bind H. cbv [get] in H0. inversion H0; subst; clear H0.
  destruct (whenTruthy _).
  - inv_bind H. inv_bind H. inv_ret H. reflexivity.
  - inv_ret H. reflexivity.
Qed.

(** C5, as the code has it: a name that the registry did not hold is
    returned only from step 3, that is when, as the object arrives, no
    definition carries its signature and no definition of the same base name
    carries its field names; the name is then the first free one and is
    registered on return. *)
Theorem new_definition_guard fuel obj suggestedName pts g name g' :
  generateObjectType localeCompare fuel obj suggestedName pts g = Ok (name, g') ->
  ~ In name (keys (interfaceStructures g)) ->
  let structure := generateInterfaceStructure obj pts in
  exists baseName,
    interfaceNameOf suggestedName = Ok (Name baseName)
    /\ whenTruthy (findExistingInterface (interfaceStructures g) structure) = None
    /\ whenTruthy (findSimilarLoop (interfaceStructures g) (dropTrailingDigits baseName)
                     (keys (parseStructure structure))) = None
    /\ name = ensureUniqueName (usedNames g) baseName
    /\ In name (keys (interfaceStructures g')).
Proof.
  intros H Hnew structure.
  destruct fuel as [|f]; [discriminate|].
  rewrite generateObjectType_unfold in H.
  inv_bind H. inv_lift H0.
  cbv zeta in H. fold structure in H.
  inv_bind H. cbv [get] in H1. inversion H1; subst; clear H1.
  destruct (whenTruthy (findExistingInterface _ _)) as [existing|] eqn:Hexact.
  - inv_ret H. apply whenTruthy_Some in Hexact as [Hexact _].
    apply findExistingInterface_registered in Hexact. contradiction.
  - inv_bind H. inv_lift H1.
    destruct a as [baseName| |]; simpl in H1; try discriminate.
    inversion H1; subst; clear H1.
    destruct (whenTruthy (findSimilarLoop _ _ _)) as [similar|] eqn:Hsimilar.
    + apply mergeInterfaces_name in H. subst.
      apply whenTruthy_Some in Hsimilar as [Hsimilar _].
      apply findSimilarLoop_registered in Hsimilar. contradiction.
    + exists baseName. inv_bind H. inv_bind H.
      cbv [modify] in H2. inversion H2; subst; clear H2. inv_ret H.
      repeat split; auto.
      simpl. apply keys_mapSet_here.
Qed.

End Registry.

(** ** Lists of type labels *)

Lemma includes_In (l : list string) (x : string) : includes l x = true <-> In x l.
Proof.
  unfold includes. rewrite existsb_exists. split.
  - intros (y & Hy & E). apply String.eqb_eq in E. subst. exact Hy.
  - intros H. exists x. split; [exact H | apply String.eqb_refl].
Qed.

Lemma In_removeFirst (x y : string) (l : list string) :
  In x l -> x <> y -> In x (removeFirst y l).
Proof.
  induction l as [|z r IH]; simpl; [tauto|].
  intros [E|H] N.
  - subst. destruct (String.eqb x y) eqn:Q; [apply String.eqb_eq in Q; contradiction|].
    left. reflexivity.
  - destruct (String.eqb z y); [exact H | right; apply IH; assumption].
Qed.

Lemma removeFirst_subset (x y : string) (l : list string) :
  In x (removeFirst y l) -> In x l.
Proof.
  induction l as [|z r IH]; simpl; [tauto|].
  destruct (String.eqb z y); simpl; [tauto|]. intros [E|H]; [left; exact E | right; auto].
Qed.

Lemma filter_removeFirst_length (f : string -> bool) (y : string) (l : list string) :
  List.length (filter f l) <= S (List.length (filter f (removeFirst y l))).
Proof.
  induction l as [|z r IH]; simpl; [lia|].
  destruct (String.eqb z y); simpl.
  - destruct (f z); simpl; lia.
  - destruct (f z); simpl; lia.
Qed.

Lemma filter_nonempty {A} (f : A -> bool) (l : list A) :
  0 < List.length (filter f l) -> exists u, In u l /\ f u = true.
Proof.
  destruct (filter f l) as [|u r] eqn:E; simpl; [lia|]. intros _.
  assert (H : In u (filter f l)) by (rewrite E; left; reflexivity).
  apply filter_In in H. exists u. exact H.
Qed.

Lemma arrayType_real (u : string) :
  isArrayType u = true -> u <> "null" /\ u <> "undefined".
Proof. intros H. split; intros E; subst; discriminate H. Qed.

Lemma hasNull_In (l : list string) : hasNull l = true <-> In "null" l.
Proof. apply includes_In. Qed.

Lemma hasRealType_In (l : list string) :
  hasRealType l = true <-> exists t, In t l /\ t <> "null" /\ t <> "undefined".
Proof.
  unfold hasRealType. rewrite existsb_exists. split.
  - intros (t & Ht & E). apply andb_true_iff in E as [E1 E2].
    apply negb_true_iff in E1, E2. apply String.eqb_neq in E1, E2. eauto.
  - intros (t & Ht & N1 & N2). exists t. split; [exact Ht|].
    apply String.eqb_neq in N1, N2. rewrite N1, N2. reflexivity.
Qed.

Lemma join_nonempty_cases (l : list string) :
  l <> [] ->
  match l with [] => "unknown" | [t] => t | _ => join " | " l end = join " | " l.
Proof. destruct l as [|a [|b r]]; [congruence | reflexivity | reflexivity]. Qed.

Lemma In_insert {A} (cmp : A -> A -> Z) (p x : A) (l : list A) :
  In x (insert cmp p l) <-> x = p \/ In x l.
Proof.
  induction l as [|e r IH]; simpl; [intuition|].
  destruct (cmp p e <? 0)%Z; simpl; [intuition | rewrite IH; intuition].
Qed.

Lemma In_sortBy {A} (cmp : A -> A -> Z) (x : A) (l : list A) :
  In x (sortBy cmp l) <-> In x l.
Proof.
  unfold sortBy.
  assert (G : forall acc, In x (fold_left (fun acc y => insert cmp y acc) l acc)
                          <-> In x acc \/ In x l).
  { induction l as [|y r IH]; intros acc; simpl; [intuition|].
    rewrite IH, In_insert. intuition. }
  rewrite G. simpl. intuition.
Qed.

Lemma In_setAdd (x y : string) (s : list string) : In x (setAdd y s) <-> x = y \/ In x s.
Proof.
  unfold setAdd. destruct (includes s y) eqn:E.
  - apply includes_In in E. split; [auto | intros [->|H]; assumption].
  - rewrite in_app_iff. simpl. intuition.
Qed.

Lemma NoDup_setAdd (y : string) (s : list string) : NoDup s -> NoDup (setAdd y s).
Proof.
  unfold setAdd. destruct (includes s y) eqn:E; [auto|]. intros H.
  assert (N : ~ In y s) by (rewrite <- includes_In, E; discriminate).
  clear E. induction H as [|z r Hz Hr IH]; simpl.
  - constructor; [intros []| constructor].
  - constructor.
    + rewrite in_app_iff. simpl. intros [I|[I|[]]]; [contradiction|].
      subst. apply N. left. reflexivity.
    + apply IH. intros I. apply N. right. exact I.
Qed.

Lemma setAdd_all (l acc : list string) :
  let set := fold_left (fun set t => setAdd t set) l acc in
  (NoDup acc -> NoDup set) /\ (forall x, In x set <-> In x acc \/ In x l).
Proof.
  revert acc. induction l as [|y r IH]; intros acc; simpl.
  - split; [auto | intuition].
  - destruct (IH (setAdd y acc)) as [N I]. split.
    + intros H. apply N, NoDup_setAdd, H.
    + intros x. rewrite I, In_setAdd. intuition.
Qed.

Lemma In_setDelete (x y : string) (s : list string) :
  In x (setDelete y s) <-> In x s /\ x <> y.
Proof.
  unfold setDelete. rewrite filter_In, negb_true_iff, String.eqb_neq. reflexivity.
Qed.

Lemma NoDup_two_distinct (l : list string) (x : string) :
  NoDup l -> 1 < List.length l -> exists u, In u l /\ u <> x.
Proof.
  intros N L. destruct l as [|a [|b r]]; simpl in L; try lia.
  destruct (String.eqb a x) eqn:E.
  - apply String.eqb_eq in E. subst. exists b. split; [right; left; reflexivity|].
    intros ->. inversion N as [|? ? Hn _]. apply Hn. left. reflexivity.
  - apply String.eqb_neq in E. exists a. split; [left; reflexivity | exact E].
Qed.

(** ** Null forces required: where the override is applied *)

(** The field loop of [generateObjectType], whatever markers the set holds. *)

Lemma mergedField_null_required (types : list string) :
  In "null" types ->
  (exists t, In t types /\ t <> "null" /\ t <> "undefined" /\ t <> "missing") ->
  exists union,
    mergedField types = (join " | " union, false)
    /\ In "null" union /\ incl union types.
Proof.
  intros Hnull (t & Ht & N1 & N2 & N3).
  unfold mergedField.
  set (actual0 := filter notMarker types).
  set (arrays := filter isArrayType actual0).
  set (actual := if Nat.ltb 1 (List.length arrays) && includes arrays "unknown[]"
                 then removeFirst "unknown[]" actual0 else actual0).
  assert (S0 : incl actual0 types) by (intros x Hx; apply filter_In in Hx; tauto).
  assert (Hn0 : In "null" actual0) by (apply filter_In; split; [exact Hnull | reflexivity]).
  assert (Ht0 : In t actual0).
  { apply filter_In. split; [exact Ht|]. unfold notMarker.
    apply String.eqb_neq in N2, N3. rewrite N2, N3. reflexivity. }
  assert (Sub : incl actual actual0).
  { unfold actual. destruct (_ && _); [|apply incl_refl].
    intros x Hx. eapply removeFirst_subset, Hx. }
  assert (Hn : In "null" actual).
  { unfold actual. destruct (_ && _); [|exact Hn0].
    apply In_removeFirst; [exact Hn0 | discriminate]. }
  assert (Hr : hasRealType actual = true).
  { apply hasRealType_In. unfold actual.
    destruct (Nat.ltb 1 (List.length arrays) && includes arrays "unknown[]") eqn:C.
    - apply andb_true_iff in C as [C _]. apply Nat.ltb_lt in C.
      pose proof (filter_removeFirst_length isArrayType "unknown[]" actual0) as L.
      fold arrays in L.
      destruct (filter_nonempty isArrayType (removeFirst "unknown[]" actual0)) as (u & Hu & A);
        [lia|].
      exists u. split; [exact Hu | apply arrayType_real, A].
    - exists t. auto. }
  apply hasNull_In in Hn as Hn'. rewrite Hn', Hr. simpl.
  exists actual. split; [|split].
  - f_equal. apply join_nonempty_cases. intros E. rewrite E in Hn. exact Hn.
  - exact Hn.
  - intros x Hx. apply S0, Sub, Hx.
Qed.

(** The per-property merge of [mergeInterfaces], whatever the two optional
    flags are and however the host orders the union. *)
Lemma mergeProp_null_required (localeCompare : string -> string -> Z)
      (existing : prop) (newType : string) (isOptional : bool) :
  let accumulated := (parseUnionType (propType existing) ++ parseUnionType newType)%list in
  In "null" accumulated ->
  (exists t, In t accumulated /\ t <> "null" /\ t <> "undefined") ->
  exists union,
    mergeProp localeCompare existing newType isOptional
    = {| propType := join " | " union; propOptional := false |}
    /\ In "null" union /\ incl union accumulated.
Proof.
  intros accumulated Hnull (t & Ht & N1 & N2).
  unfold mergeProp. fold accumulated.
  set (all0 := fold_left (fun set t => setAdd t set) accumulated []).
  destruct (setAdd_all accumulated []) as [ND I]. fold all0 in ND, I. cbv zeta in ND, I.
  specialize (ND (NoDup_nil _)).
  assert (I0 : forall x, In x all0 <-> In x accumulated) by (intros x; rewrite I; simpl; tauto).
  set (arrays := filter isArrayType all0).
  set (all := if Nat.ltb 1 (List.length arrays) && includes arrays "unknown[]"
              then setDelete "unknown[]" all0 else all0).
  set (sorted := sortBy (unionOrder localeCompare) all).
  assert (Sub : incl all all0).
  { unfold all. destruct (_ && _); [|apply incl_refl].
    intros x Hx. apply In_setDelete in Hx. tauto. }
  assert (Hn : In "null" sorted).
  { apply In_sortBy. unfold all. destruct (_ && _).
    - apply In_setDelete. split; [apply I0, Hnull | discriminate].
    - apply I0, Hnull. }
  assert (Hr : hasRealType sorted = true).
  { apply hasRealType_In.
    assert (R : exists u, In u all /\ u <> "null" /\ u <> "undefined").
    { unfold all.
      destruct (Nat.ltb 1 (List.length arrays) && includes arrays "unknown[]") eqn:C.
      - apply andb_true_iff in C as [C _]. apply Nat.ltb_lt in C.
        destruct (NoDup_two_distinct arrays "unknown[]") as (u & Hu & Nu);
          [apply NoDup_filter, ND | exact C |].
        apply filter_In in Hu as [Hu A]. exists u. split.
        + apply In_setDelete. split; assumption.
        + apply arrayType_real, A.
      - exists t. split; [apply I0, Ht | auto]. }
    destruct R as (u & Hu & R). exists u. split; [apply In_sortBy, Hu | exact R]. }
  apply hasNull_In in Hn as Hn'. rewrite Hn', Hr. simpl.
  exists sorted. split; [reflexivity | split; [exact Hn|]].
  intros x Hx. apply In_sortBy in Hx. apply I0, Sub, Hx.
Qed.


(** ** Values without objects leave the registry alone *)

Lemma depth_item (item : jsvalue) (items : list jsvalue) :
  In item items -> depth item <= fold_right (fun item d => Nat.max (depth item) d) 0 items.
Proof.
  induction items as [|x r IH]; simpl; [tauto|].
  intros [->|H]; [lia | specialize (IH H); lia].
Qed.

Lemma depth_entry (key : string) (value : jsvalue) (entries : list (string * jsvalue)) :
  In (key, value) entries ->
  depth value <= fold_right (fun '(_, value) d => Nat.max (depth value) d) 0 entries.
Proof.
  induction entries as [|[k v] r IH]; simpl; [tauto|].
  intros [E|H]; [inversion E; subst; lia | specialize (IH H); lia].
Qed.

Section ObjectFree.

Variable localeCompare : string -> string -> Z.

Lemma generateArrayType_unfold f arr suggestedName :
  generateArrayType localeCompare (S f) arr suggestedName =
  (scanned <- scanItems (generateArrayType localeCompare f) arr suggestedName [] [] ;;
   let '(types, objectShapes) := scanned in
   match objectShapes with
   | [] => ret (arrayTypeOf types)
   | firstObj :: others =>
       itemName <- lift (generateCleanInterfaceName suggestedName false) ;;
       let firstStructure := generateInterfaceStructure firstObj None in
       let allSame :=
         forallb (fun o => String.eqb (generateInterfaceStructure o None) firstStructure)
                 others in
       if allSame then
         objectType <- generateObjectType localeCompare f firstObj (Name itemName) None ;;
         ret (arrayTypeOf (types ++ [objectType])%list)
       else
         mergedShape <- mergeObjectsWithUnionTypes localeCompare f objectShapes ;;
         objectType <- generateObjectType localeCompare f (shape mergedShape)
                         (Name itemName) (Some (propertyTypes mergedShape)) ;;
         ret (arrayTypeOf (types ++ [objectType])%list)
   end).
Proof. reflexivity. Qed.

Lemma scanItems_objectFree (nested : list jsvalue -> nameHint -> M string)
      (suggestedName : nameHint) (g : generator) (arr : list jsvalue) :
  forallb objectFree arr = true ->
  (forall sub, In (JArray sub) arr -> exists ty, nested sub suggestedName g = Ok (ty, g)) ->
  forall primitiveTypes,
  exists types,
    scanItems nested arr suggestedName primitiveTypes [] g = Ok ((types, []), g).
Proof.
  induction arr as [|item rest IH]; intros F N primitiveTypes; simpl.
  - eexists. reflexivity.
  - simpl in F. apply andb_true_iff in F as [Fi Fr].
    assert (N' : forall sub, In (JArray sub) rest ->
                             exists ty, nested sub suggestedName g = Ok (ty, g))
      by (intros sub H; apply N; right; exact H).
    destruct item; try (apply IH; assumption); [|discriminate Fi].
    destruct (N items) as (ty & E); [left; reflexivity|].
    unfold bind. rewrite E. apply IH; assumption.
Qed.

Lemma objectFree_typed (fuel : nat) :
  (forall value suggestedName g,
      objectFree value = true -> depth value < fuel ->
      exists ty, generateType localeCompare fuel value suggestedName g = Ok (ty, g))
  /\ (forall arr suggestedName g,
         forallb objectFree arr = true -> depth (JArray arr) <= fuel ->
         exists ty, generateArrayType localeCompare fuel arr suggestedName g = Ok (ty, g)).
Proof.
  induction fuel as [|f [IHt IHa]]; split.
  - intros value ? ? _ D. lia.
  - intros arr ? ? _ D. simpl in D. lia.
  - intros value suggestedName g F D.
    destruct value; simpl; try (eexists; reflexivity); [|discriminate F].
    apply IHa; [exact F | lia].
  - intros arr suggestedName g F D. simpl in D.
    destruct (scanItems_objectFree (generateArrayType localeCompare f) suggestedName g arr F)
      with (primitiveTypes := @nil string) as (types & E).
    + intros sub H. apply IHa.
      * apply forallb_forall with (x := JArray sub) in F; [exact F | exact H].
      * apply depth_item in H. lia.
    + exists (arrayTypeOf types).
      rewrite generateArrayType_unfold.
      unfold bind at 1. rewrite E. reflexivity.
Qed.


End ObjectFree.

(** ** Registering flat objects *)


Lemma truthy_append (a b : string) : truthy a = true -> truthy (a ++ b) = true.
Proof. destruct a; [discriminate | reflexivity]. Qed.

Lemma firstFreeSuffix_form used baseName counter fuel :
  exists k, firstFreeSuffix used baseName counter fuel = baseName ++ decimal k.
Proof.
  revert counter. induction fuel as [|f IH]; intros counter; simpl.
  - eexists. reflexivity.
  - destruct (includes used _); [apply IH | eexists; reflexivity].
Qed.

Lemma ensureUniqueName_truthy used baseName :
  truthy baseName = true -> truthy (ensureUniqueName used baseName) = true.
Proof.
  intros T. unfold ensureUniqueName. destruct (negb _); [exact T|].
  destruct (firstFreeSuffix_form used baseName 2 (List.length used)) as (k & ->).
  apply truthy_append, T.
Qed.

Section FlatObjects.

Variable localeCompare : string -> string -> Z.



End FlatObjects.

(** ** Deduplication and unique names *)

Section Deduplication.

Variable localeCompare : string -> string -> Z.



End Deduplication.





(** ** Keys of maps and dictionaries *)

Lemma keys_mapSet {V} (x k : string) (v : V) (m : list (string * V)) :
  In x (keys (mapSet k v m)) <-> x = k \/ In x (keys m).
Proof.
  induction m as [|[k' v'] r IH]; simpl; [intuition|].
  destruct (String.eqb k' k) eqn:E; simpl.
  - apply String.eqb_eq in E. subst. intuition.
  - rewrite IH. intuition.
Qed.

Lemma keys_objInsertIndex {V} (x : string) (i : N) (k : string) (v : V) (o : jsobj V) :
  In x (keys (objInsertIndex i k v o)) <-> x = k \/ In x (keys o).
Proof.
  induction o as [|[k' v'] r IH]; simpl; [intuition|].
  destruct (arrayIndex k') as [j|]; [destruct (j <? i)%N|]; simpl;
    try rewrite IH; intuition.
Qed.

Lemma keys_objSet {V} (x k : string) (v : V) (o : jsobj V) :
  In x (keys o) -> In x (keys (objSet k v o)).
Proof.
  intros H. unfold objSet. destruct (String.eqb k "__proto__"); [exact H|].
  destruct (mapHas k o); [apply keys_mapSet; auto|].
  destruct (arrayIndex k); [apply keys_objInsertIndex; auto|].
  unfold keys. rewrite map_app, in_app_iff. left. exact H.
Qed.

Lemma keys_objSet_new {V} (k : string) (v : V) (o : jsobj V) :
  k <> "__proto__" -> In k (keys (objSet k v o)).
Proof.
  intros N. unfold objSet. apply String.eqb_neq in N. rewrite N.
  destruct (mapHas k o); [apply keys_mapSet; auto|].
  destruct (arrayIndex k); [apply keys_objInsertIndex; auto|].
  unfold keys. rewrite map_app, in_app_iff. right. left. reflexivity.
Qed.

Lemma keys_objSet_inv {V} (x k : string) (v : V) (o : jsobj V) :
  In x (keys (objSet k v o)) -> x = k \/ In x (keys o).
Proof.
  unfold objSet. destruct (String.eqb k "__proto__"); [auto|].
  destruct (mapHas k o); [apply keys_mapSet|].
  destruct (arrayIndex k); [apply keys_objInsertIndex|].
  unfold keys. rewrite map_app, in_app_iff. simpl. intuition.
Qed.

Lemma assoc_keys {V} (k : string) (m : list (string * V)) :
  In k (keys m) <-> exists v, assoc k m = Some v.
Proof.
  induction m as [|[k' v'] r IH]; simpl.
  - split; [tauto | intros (v & H); discriminate].
  - destruct (String.eqb k' k) eqn:E.
    + apply String.eqb_eq in E. subst. split; [eauto | auto].
    + apply String.eqb_neq in E. rewrite IH. intuition.
Qed.

Lemma keys_map_values {V W} (f : string -> V -> W) (m : list (string * V)) :
  keys (map (fun '(key, v) => (key, f key v)) m) = keys m.
Proof.
  unfold keys. rewrite map_map. apply map_ext. intros [k v]. reflexivity.
Qed.

Lemma keys_markMissing absentFrom types : keys (markMissing absentFrom types) = keys types.
Proof. exact (keys_map_values (fun key set => if absentFrom key then setAdd "missing" set else set) types). Qed.

Lemma keys_finishMerge count acc :
  keys (propertyTypes (finishMerge count acc)) = keys (accTypes acc).
Proof.
  unfold finishMerge. simpl.
  rewrite (keys_map_values (fun _ set => dropUnknownArray set)). apply keys_markMissing.
Qed.

(** ** The merged shape is covered by its type sets *)

Lemma objGet_Absent_not_proto {V} (k : string) (o : jsobj V) :
  objGet k o = Absent -> k <> "__proto__".
Proof.
  unfold objGet. destruct (assoc k o); [discriminate|].
  destruct (includes protoKeys k) eqn:E; [discriminate|].
  intros _ ->. discriminate E.
Qed.

Lemma mergeEntries_covered generateArrayType generateObjectType entries :
  forall seenKeys acc g seen acc' g',
    covered acc ->
    mergeEntries generateArrayType generateObjectType entries seenKeys acc g
    = Ok ((seen, acc'), g') ->
    covered acc'.
Proof.
  induction entries as [|[key value] rest IH]; intros seenKeys acc g seen acc' g' C H.
  - simpl in H. inv_ret H. exact C.
  - simpl in H.
    destruct (objGet key (accTypes acc)) as [set| |] eqn:G.
    + inv_bind H. eapply IH; [|exact H]. clear IH H.
      assert (K : In key (keys (accTypes acc))).
      { apply assoc_keys. unfold objGet in G. destruct (assoc key (accTypes acc)) eqn:A;
          [eauto | destruct (includes protoKeys key); discriminate]. }
      intros k. simpl.
      assert (T : In k (keys (accTypes acc)) ->
                  In k (keys match assoc key (accTypes acc) with
                             | Some set0 => mapSet key (setAdd a set0) (accTypes acc)
                             | None => accTypes acc
                             end)).
      { intros I. destruct (assoc key (accTypes acc)); [apply keys_mapSet; auto | exact I]. }
      destruct (takesRepresentative _ _); intros I; apply T.
      * apply keys_objSet_inv in I as [->|I]; [exact K | apply C, I].
      * apply C, I.
    + inv_bind H. discriminate H.
    + inv_bind H. eapply IH; [|exact H]. clear IH H.
      apply objGet_Absent_not_proto in G.
      pose proof (keys_objSet_new key (@nil string) (accTypes acc) G) as K.
      intros k. simpl.
      assert (T : In k (keys (objSet key [] (accTypes acc))) ->
                  In k (keys match assoc key (objSet key [] (accTypes acc)) with
                             | Some set0 =>
                                 mapSet key (setAdd a set0) (objSet key [] (accTypes acc))
                             | None => objSet key [] (accTypes acc)
                             end)).
      { intros I. destruct (assoc key (objSet key [] (accTypes acc)));
          [apply keys_mapSet; auto | exact I]. }
      destruct (takesRepresentative _ _); intros I; apply T.
      * apply keys_objSet_inv in I as [->|I]; [exact K | apply keys_objSet, C, I].
      * apply keys_objSet, C, I.
Qed.

Lemma mergeObjects_covered generateArrayType generateObjectType objects :
  forall acc g acc' g',
    covered acc ->
    mergeObjects generateArrayType generateObjectType objects acc g = Ok (acc', g') ->
    covered acc'.
Proof.
  induction objects as [|obj rest IH]; intros acc g acc' g' C H; simpl in H.
  - inv_ret H. exact C.
  - inv_bind H. destruct a as [seenKeys acc1].
    apply mergeEntries_covered in H0; [|exact C].
    eapply IH; [|exact H]. intros k. simpl. rewrite keys_markMissing. apply H0.
Qed.

Lemma merged_keys_own localeCompare fuel objects g m g' :
  mergeObjectsWithUnionTypes localeCompare fuel objects g = Ok (m, g') ->
  forall key, In key (keys (shape m)) -> exists set, assoc key (propertyTypes m) = Some set.
Proof.
  destruct fuel as [|f]; [discriminate|]. simpl. intros H.
  inv_bind H. inv_ret H.
  apply mergeObjects_covered in H0; [|intros k []].
  intros key I. apply assoc_keys. rewrite keys_finishMerge. apply H0, I.
Qed.

(** ** Heterogeneous arrays *)

Lemma Forall_setAdd (P : string -> Prop) (t : string) (set : list string) :
  P t -> Forall P set -> Forall P (setAdd t set).
Proof.
  intros Pt F. apply Forall_forall. intros x I. apply In_setAdd in I as [->|I];
    [exact Pt | rewrite Forall_forall in F; apply F, I].
Qed.

Lemma scanItems_result nested suggestedName arr0 arr :
  forall types shapes g types' shapes' g',
    (forall item, In item arr -> In item arr0) ->
    Forall (elementLabel nested suggestedName arr0) types ->
    scanItems nested arr suggestedName types shapes g = Ok ((types', shapes'), g') ->
    shapes' = (shapes ++ objectElements arr)%list
    /\ Forall (elementLabel nested suggestedName arr0) types'.
Proof.
  induction arr as [|item rest IH]; intros types shapes g types' shapes' g' Sub F H.
  - simpl in H. inv_ret H. rewrite app_nil_r. auto.
  - assert (Sub' : forall i, In i rest -> In i arr0) by (intros i I; apply Sub; right; exact I).
    assert (Here : In item arr0) by (apply Sub; left; reflexivity).
    destruct item; simpl in H.
    + apply IH in H; auto. apply Forall_setAdd; [|exact F]. exists JNull. auto.
    + apply IH in H; auto. apply Forall_setAdd; [|exact F]. exists JUndefined. auto.
    + apply IH in H; auto. apply Forall_setAdd; [|exact F]. exists (JBoolean b). auto.
    + apply IH in H; auto. apply Forall_setAdd; [|exact F]. exists (JNumber n). auto.
    + apply IH in H; auto. apply Forall_setAdd; [|exact F]. exists (JString s). auto.
    + inv_bind H. apply IH in H; auto. apply Forall_setAdd; [|exact F].
      exists (JArray items). split; [exact Here | eauto].
    + apply IH in H; auto. destruct H as [-> F']. rewrite <- app_assoc. auto.
    + apply IH in H; auto. apply Forall_setAdd; [|exact F]. exists (JOther typeofTag). auto.
Qed.

Lemma objectFields_with_types generateType pts g entries :
  (forall key, In key (keys entries) -> exists set, assoc key pts = Some set) ->
  exists lines, objectFields generateType entries (Some pts) g = Ok (lines, g).
Proof.
  induction entries as [|[key value] rest IH]; intros C; simpl.
  - eexists. reflexivity.
  - destruct (C key) as (set & ->); [left; reflexivity|].
    destruct IH as (lines & E); [intros k I; apply C; right; exact I|].
    unfold bind at 1. simpl. unfold bind. rewrite E. eexists. reflexivity.
Qed.


Section Arrays.

Variable localeCompare : string -> string -> Z.



End Arrays.


(** ** The fuel of [generateFromJson] is enough *)

Lemma bind_runs {A B} (m : M A) (f : A -> M B) (g : generator) :
  m g <> OutOfFuel ->
  (forall a g1, m g = Ok (a, g1) -> f a g1 <> OutOfFuel) ->
  bind m f g <> OutOfFuel.
Proof.
  intros Hm Hf. unfold bind. destruct (m g) as [[a g1]|msg|].
  - apply Hf. reflexivity.
  - discriminate.
  - contradiction.
Qed.

Lemma lift_runs {A} (r : result A) (g : generator) : r <> OutOfFuel -> lift r g <> OutOfFuel.
Proof. unfold lift. destruct r; [discriminate | discriminate | contradiction]. Qed.

Lemma generateCleanInterfaceName_runs suggestedName isGeneric :
  generateCleanInterfaceName suggestedName isGeneric <> OutOfFuel.
Proof. destruct suggestedName as [[|c s]| |]; simpl; discriminate. Qed.

Lemma interfaceNameOf_runs suggestedName : interfaceNameOf suggestedName <> OutOfFuel.
Proof. destruct suggestedName as [s| |]; simpl; [destruct (truthy s)| |]; discriminate. Qed.

Lemma findSimilarInterface_runs structures structure suggestedName :
  findSimilarInterface structures structure suggestedName <> OutOfFuel.
Proof. destruct suggestedName; simpl; discriminate. Qed.

Lemma objectElements_In (obj : list (string * jsvalue)) (arr : list jsvalue) :
  In obj (objectElements arr) -> In (JObject obj) arr.
Proof.
  induction arr as [|item rest IH]; simpl; [tauto|].
  destruct item; simpl; try (intros H; right; apply IH, H).
  intros [->|H]; [left; reflexivity | right; apply IH, H].
Qed.

Lemma scanItems_runs nested suggestedName arr :
  (forall sub, In (JArray sub) arr -> forall g, nested sub suggestedName g <> OutOfFuel) ->
  forall types shapes g, scanItems nested arr suggestedName types shapes g <> OutOfFuel.
Proof.
  induction arr as [|item rest IH]; intros N types shapes g; simpl; [discriminate|].
  assert (N' : forall sub, In (JArray sub) rest ->
                           forall g, nested sub suggestedName g <> OutOfFuel)
    by (intros sub I; apply N; right; exact I).
  destruct item; try (apply IH; exact N').
  apply bind_runs; [apply N; left; reflexivity|]. intros. apply IH; exact N'.
Qed.

Lemma objectFields_runs generateType pts entries :
  (forall key value, In (key, value) entries ->
                     forall hint g, generateType value hint g <> OutOfFuel) ->
  forall g, objectFields generateType entries pts g <> OutOfFuel.
Proof.
  induction entries as [|[key value] rest IH]; intros T g; simpl; [discriminate|].
  apply bind_runs.
  - destruct (match pts with Some p => assoc key p | None => None end).
    + discriminate.
    + apply bind_runs; [apply (T key); left; reflexivity | discriminate].
  - intros field g1 _. apply bind_runs; [|discriminate].
    apply IH. intros k v I. apply (T k). right. exact I.
Qed.

Lemma mergeProps_runs localeCompare generateType pts entries :
  (forall key value, In (key, value) entries ->
                     forall hint g, generateType value hint g <> OutOfFuel) ->
  forall mergedProps g,
    mergeProps localeCompare generateType entries pts mergedProps g <> OutOfFuel.
Proof.
  induction entries as [|[key value] rest IH]; intros T mergedProps g; simpl; [discriminate|].
  assert (T' : forall k v, In (k, v) rest -> forall hint g, generateType v hint g <> OutOfFuel)
    by (intros k v I; apply (T k); right; exact I).
  apply bind_runs.
  - destruct (match pts with Some p => assoc key p | None => None end).
    + discriminate.
    + apply bind_runs; [apply (T key); left; reflexivity | discriminate].
  - intros new g1 _. destruct (objGet key mergedProps); [|discriminate|]; apply IH; exact T'.
Qed.

Lemma mergeProps_with_types_runs localeCompare generateType pts entries :
  (forall key, In key (keys entries) -> exists set, assoc key pts = Some set) ->
  forall mergedProps g,
    mergeProps localeCompare generateType entries (Some pts) mergedProps g <> OutOfFuel.
Proof.
  induction entries as [|[key value] rest IH]; intros C mergedProps g; simpl; [discriminate|].
  destruct (C key) as (set & ->); [left; reflexivity|].
  assert (C' : forall k, In k (keys rest) -> exists set, assoc k pts = Some set)
    by (intros k I; apply C; right; exact I).
  unfold bind at 1. simpl.
  destruct (objGet key mergedProps); [|discriminate|]; apply IH; exact C'.
Qed.

Lemma mergeEntries_runs generateArrayType generateObjectType entries :
  (forall key items, In (key, JArray items) entries ->
                     forall hint g, generateArrayType items hint g <> OutOfFuel) ->
  (forall key fields, In (key, JObject fields) entries ->
                      forall hint g, generateObjectType fields hint g <> OutOfFuel) ->
  forall seenKeys acc g,
    mergeEntries generateArrayType generateObjectType entries seenKeys acc g <> OutOfFuel.
Proof.
  induction entries as [|[key value] rest IH]; intros A O seenKeys acc g; simpl;
    [discriminate|].
  assert (V : forall g0,
             match value with
             | JNull => ret "null"
             | JUndefined => ret "undefined"
             | JArray items => generateArrayType items (generateCleanChildName key)
             | JObject fields => generateObjectType fields (generateCleanChildName key)
             | JBoolean _ | JNumber _ | JString _ | JOther _ => ret (typeOf value)
             end g0 <> OutOfFuel).
  { intros g0. destruct value; try discriminate.
    - apply (A key). left. reflexivity.
    - apply (O key). left. reflexivity. }
  assert (Step : forall seen acc1 g1,
             mergeEntries generateArrayType generateObjectType rest seen acc1 g1
             <> OutOfFuel).
  { apply IH; intros k x I; [apply (A k) | apply (O k)]; right; exact I. }
  destruct (objGet key (accTypes acc)).
  - apply bind_runs; [apply V|]. intros. apply Step.
  - apply bind_runs; [apply V | discriminate].
  - apply bind_runs; [apply V|]. intros. apply Step.
Qed.

Lemma mergeObjects_runs generateArrayType generateObjectType objects :
  (forall obj key items, In obj objects -> In (key, JArray items) obj ->
                         forall hint g, generateArrayType items hint g <> OutOfFuel) ->
  (forall obj key fields, In obj objects -> In (key, JObject fields) obj ->
                          forall hint g, generateObjectType fields hint g <> OutOfFuel) ->
  forall acc g, mergeObjects generateArrayType generateObjectType objects acc g <> OutOfFuel.
Proof.
  induction objects as [|obj rest IH]; intros A O acc g; simpl; [discriminate|].
  apply bind_runs.
  - apply mergeEntries_runs; intros k x I; [apply (A obj k) | apply (O obj k)];
      auto; left; reflexivity.
  - intros [seenKeys acc1] g1 _.
    apply IH; intros o k x Io I; [apply (A o k) | apply (O o k)]; auto; right; exact Io.
Qed.

Section Fuel.

Variable localeCompare : string -> string -> Z.

Lemma mergeObjectsWithUnionTypes_unfold f objects :
  mergeObjectsWithUnionTypes localeCompare (S f) objects =
  (acc <- mergeObjects (generateArrayType localeCompare f)
            (fun fields childName => generateObjectType localeCompare f fields childName None)
            objects {| accShape := []; accTypes := []; accOccurrences := [] |} ;;
   ret (finishMerge (List.length objects) acc)).
Proof. reflexivity. Qed.

Lemma generateObjectType_runs f obj hint pts g :
  (forall similar g1, mergeInterfaces localeCompare f similar obj pts g1 <> OutOfFuel) ->
  (forall g1, objectFields (generateType localeCompare f) obj pts g1 <> OutOfFuel) ->
  generateObjectType localeCompare (S f) obj hint pts g <> OutOfFuel.
Proof.
  intros Hmerge Hfields. rewrite generateObjectType_unfold.
  apply bind_runs; [apply lift_runs, interfaceNameOf_runs|]. intros interfaceName g1 _.
  cbv zeta. apply bind_runs; [discriminate|]. intros gNow g2 _.
  destruct (whenTruthy (findExistingInterface _ _)); [discriminate|].
  apply bind_runs; [apply lift_runs, findSimilarInterface_runs|]. intros similar g3 _.
  destruct (whenTruthy similar); [apply Hmerge|].
  destruct interfaceName; try discriminate.
  apply bind_runs; [apply Hfields|]. intros lines g4 _.
  apply bind_runs; discriminate.
Qed.

Lemma mergeInterfaces_runs f name obj pts g :
  (forall mergedProps g1,
      mergeProps localeCompare (generateType localeCompare f) obj pts mergedProps g1
      <> OutOfFuel) ->
  mergeInterfaces localeCompare (S f) name obj pts g <> OutOfFuel.
Proof.
  intros Hprops. rewrite mergeInterfaces_unfold.
  apply bind_runs; [discriminate|]. intros gNow g1 _.
  destruct (whenTruthy _); [|discriminate].
  apply bind_runs; [apply Hprops|]. intros mergedProps g2 _.
  apply bind_runs; discriminate.
Qed.

Lemma enough_all (fuel : nat) : enough localeCompare fuel.
Proof.
  induction fuel as [|f (IHt & IHa & IHo & IHo' & IHi & IHi' & IHm)];
    unfold enough; repeat split; try (intros; simpl in *; lia).
  - (* generateType *)
    intros value hint g D. destruct value; try discriminate.
    + apply IHa. lia.
    + apply IHo. lia.
  - (* generateArrayType *)
    intros arr hint g D. simpl in D. rewrite generateArrayType_unfold.
    apply bind_runs.
    + apply scanItems_runs. intros sub I g0. apply IHa. apply depth_item in I. lia.
    + intros [types shapes] g1 Hscan.
      apply scanItems_result with (arr0 := arr) in Hscan as [Hshapes _]; auto.
      simpl in Hshapes. subst shapes.
      destruct (objectElements arr) as [|firstObj others] eqn:E; [discriminate|].
      assert (Dobj : forall obj, In obj (firstObj :: others) -> S (depth (JObject obj)) <= S
                       (fold_right (fun item d => Nat.max (depth item) d) 0 arr)).
      { intros obj I. rewrite <- E in I. apply objectElements_In, depth_item in I. lia. }
      apply bind_runs; [apply lift_runs, generateCleanInterfaceName_runs|].
      intros itemName g2 _. cbv zeta.
      destruct (forallb _ others).
      * apply bind_runs; [|discriminate].
        apply IHo. specialize (Dobj firstObj (or_introl eq_refl)). lia.
      * apply bind_runs.
        -- apply IHm; [lia|]. intros obj I. specialize (Dobj obj I). lia.
        -- intros mergedShape g3 Hmerge. apply bind_runs; [|discriminate].
           apply IHo'; [|lia]. eapply merged_keys_own, Hmerge.
  - (* generateObjectType *)
    intros obj hint pts g D. simpl in D. apply generateObjectType_runs.
    + intros similar g1. apply IHi. simpl. lia.
    + apply objectFields_runs. intros key value I hint' g1.
      apply IHt. apply depth_entry in I. lia.
  - (* generateObjectType, every key with its types *)
    intros obj hint pts g C D. apply generateObjectType_runs.
    + intros similar g1. apply IHi'; [exact C | lia].
    + intros g1. destruct (objectFields_with_types (generateType localeCompare f) pts g1 obj C)
        as (lines & ->). discriminate.
  - (* mergeInterfaces *)
    intros name obj pts g D. simpl in D. apply mergeInterfaces_runs.
    intros mergedProps g1. apply mergeProps_runs. intros key value I hint g2.
    apply IHt. apply depth_entry in I. lia.
  - (* mergeInterfaces, every key with its types *)
    intros name obj pts g C D. apply mergeInterfaces_runs.
    intros mergedProps g1. apply mergeProps_with_types_runs, C.
  - (* mergeObjectsWithUnionTypes *)
    intros objects g _ D. rewrite mergeObjectsWithUnionTypes_unfold.
    apply bind_runs; [|discriminate].
    apply mergeObjects_runs.
    + intros obj key items Io I hint g1. apply IHa.
      specialize (D obj Io). apply depth_entry in I. simpl in D, I |- *. lia.
    + intros obj key fields Io I hint g1. apply IHo.
      specialize (D obj Io). apply depth_entry in I. simpl in D, I |- *. lia.
Qed.

(** Every run of the entry point ends: it returns its text or raises. *)
Lemma generateFromJson_runs json rootName g :
  generateFromJson localeCompare json rootName g <> OutOfFuel.
Proof.
  unfold generateFromJson.
  apply bind_runs; [discriminate|]. intros u g1 _.
  apply bind_runs.
  - apply (proj1 (enough_all (fuelFor json))). unfold fuelFor. lia.
  - intros rootType g2 _. apply bind_runs; discriminate.
Qed.

End Fuel.

(** ** Runs of the entry point *)

(** C6: the answer of [generateFromJson], and the state it leaves, do not
    depend on the state it finds.  A call either returns its text, and then
    a second call with the same arguments, made on the state the first one
    left, returns the same text; or it raises, and then so does every later
    call with these arguments, with the same error. *)
Theorem generateFromJson_deterministic (localeCompare : string -> string -> Z)
        (json : jsvalue) (rootName : option string) (g1 g2 : generator) :
  generateFromJson localeCompare json rootName g1
  = generateFromJson localeCompare json rootName g2
  /\ match generateFromJson localeCompare json rootName g1 with
     | Ok (out, after) =>
         outputOf (generateFromJson localeCompare json rootName after) = Ok out
     | TypeError msg =>
         forall after,
           outputOf (generateFromJson localeCompare json rootName after) = TypeError msg
     | OutOfFuel => False
     end.
Proof.
  assert (R : forall a b, generateFromJson localeCompare json rootName a
                          = generateFromJson localeCompare json rootName b)
    by reflexivity.
  split; [apply R|].
  destruct (generateFromJson localeCompare json rootName g1) as [[out after]|msg|] eqn:E.
  - rewrite (R after g1), E. reflexivity.
  - intros after. rewrite (R after g1), E. reflexivity.
  - exact (generateFromJson_runs localeCompare json rootName g1 E).
Qed.

(** C3, where the code fails it.  The claim's own example holds:
    [[{a: 1}, {a: null}]] gives [a: number | null], required, and so does the
    merge of [{x: null}] into a definition with [x: number].  But for
    [[[{"a:b": 1}], [{"a:b": 1}, {"a:b": null}, {}]]] the second array is
    merged into the definition made for the first, whose text is parsed back
    with the property name [a]; the field ["a:b"], with the accumulated
    types [number], [null] and the missing marker, is then taken for a new
    property, a branch without the override, and is emitted optional. *)
Theorem null_override_missed_for_new_property
        (localeCompare : string -> string -> Z) (g : generator) :
  outputOf (generateFromJson localeCompare nullArray None g)
  = Ok (listing [ interfaceText "Item" ["  a: number | null;"];
                  "export type RootInterface = Item[];" ])
  /\ outputOf (generateFromJson localeCompare similarPair None g)
     = Ok (listing [ interfaceText "RootInterface" ["  a: A;"; "  as: A;"];
                     interfaceText "A" ["  x: number | null;"] ])
  /\ isJson colonKeyArrays = true
  /\ match mergeObjectsWithUnionTypes localeCompare 1
             [ [("a:b", one)]; [("a:b", JNull)]; [] ] g with
     | Ok (mergedShape, _) =>
         propertyTypes mergedShape = [("a:b", ["number"; "null"; "missing"])]
     | _ => False
     end
  /\ outputOf (generateFromJson localeCompare colonKeyArrays None g)
     = Ok (listing [ interfaceText "Item"
                       [ "  a: b" ++ dquote ++ ": number;";
                         "  " ++ dquote ++ "a:b" ++ dquote ++ "?: number | null;" ];
                     "export type RootInterface = Item[][];" ]).
Proof.
  split; [vm_compute; reflexivity|]. split; [vm_compute; reflexivity|].
  split; [reflexivity|]. split; vm_compute; reflexivity.
Qed.

(** C9, where the code fails it: [{constructor: {}}] is well-formed JSON, and
    the generator raises on it, although a value outside the JSON kinds does
    get the label [unknown].  The name hint for the key [constructor] is the
    member that the lookup table inherits from [Object.prototype], and
    [findSimilarInterface] calls [replace] on it. *)
Theorem constructor_key_raises (localeCompare : string -> string -> Z) (g : generator) :
  isJson constructorKey = true
  /\ generateCleanChildName "constructor" = ProtoMember "constructor"
  /\ generateFromJson localeCompare constructorKey None g
     = TypeError "suggestedName.replace is not a function"
  /\ forall fuel tag suggestedName,
       generateType localeCompare (S fuel) (JOther tag) suggestedName g = Ok ("unknown", g).
Proof.
  split; [reflexivity|]. split; [reflexivity|]. split; [vm_compute; reflexivity|].
  reflexivity.
Qed.


(** C5, refuted as stated: after [{a: {x: 1}, as: {x: null}, b: {x: 1},
    bs: {x: null}}] the definitions [A] and [B] carry the same signature;
    each got it from a merge in place. *)
Lemma merged_definitions_share_signature :
  signaturesOf (generateFromJson codeUnitCompare twoMergedPairs None cleared)
  = [ ("A", "x:number | null"); ("B", "x:number | null");
      ("RootInterface", "a:object;as:object;b:object;bs:object") ]
  /\ "A" <> "B".
Proof. split; [vm_compute; reflexivity | discriminate]. Qed.

Lemma new_definition_guard_witness :
  exists baseName,
    interfaceNameOf (Name "B") = Ok (Name baseName)
    /\ whenTruthy (findExistingInterface [("A", "x:number")] "y:number") = None
    /\ whenTruthy (findSimilarLoop [("A", "x:number")] (dropTrailingDigits baseName)
                     (keys (parseStructure "y:number"))) = None
    /\ "B" = ensureUniqueName ["A"] baseName
    /\ In "B" (keys [("A", "x:number"); ("B", "y:number")]).
Proof.
  apply (new_definition_guard codeUnitCompare 2 [("y", one)] (Name "B") None
           (register "A" (interfaceText "A" ["  x: number;"]) "x:number" cleared)
           "B"
           (register "B" (interfaceText "B" ["  y: number;"]) "y:number"
              (register "A" (interfaceText "A" ["  x: number;"]) "x:number" cleared))).
  - vm_compute. reflexivity.
  - simpl. intros [E|[]]. discriminate E.
Defined.

(** * Further properties of the generator *)

(** ** Allocating names and finding definitions *)

Lemma decimal_inj (a b : nat) : decimal a = decimal b -> a = b.
Proof.
  unfold decimal. intros H.
  apply (f_equal NilEmpty.uint_of_string) in H.
  rewrite !NilEmpty.usu in H. inversion H as [E].
  apply (f_equal Nat.of_uint) in E. rewrite !DecimalNat.Unsigned.of_to in E. exact E.
Qed.

Lemma append_inj_r (base a b : string) : base ++ a = base ++ b -> a = b.
Proof.
  induction base as [|c r IH]; simpl; [auto|]. intros H. inversion H. auto.
Qed.

Lemma NoDup_map_injective {A B} (f : A -> B) (l : list A) :
  (forall a b, f a = f b -> a = b) -> NoDup l -> NoDup (map f l).
Proof.
  intros Inj N. induction N as [|x r Hx Hr IH]; simpl; constructor; [|exact IH].
  intros I. apply in_map_iff in I as (y & E & Hy). apply Inj in E. subst. contradiction.
Qed.

Lemma candidates_NoDup (baseName : string) (start count : nat) :
  NoDup (map (fun k => baseName ++ decimal k) (seq start count)).
Proof.
  apply NoDup_map_injective; [|apply seq_NoDup].
  intros a b H. apply decimal_inj, (append_inj_r baseName), H.
Qed.

(** The loop stops at the first free candidate; when its bound is reached,
    the candidates tried fill [used], so the next one is free. *)
Lemma firstFreeSuffix_spec used baseName fuel :
  forall tried,
    (forall j, 2 <= j < 2 + tried -> In (baseName ++ decimal j) used) ->
    List.length used <= fuel + tried ->
    exists k,
      2 + tried <= k
      /\ firstFreeSuffix used baseName (2 + tried) fuel = baseName ++ decimal k
      /\ ~ In (baseName ++ decimal k) used
      /\ forall j, 2 <= j < k -> In (baseName ++ decimal j) used.
Proof.
  induction fuel as [|f IH]; intros tried Taken Bound.
  - exists (2 + tried). simpl. repeat split; auto.
    intros Here.
    assert (I : incl (map (fun k => baseName ++ decimal k) (seq 2 (S tried))) used).
    { intros x Hx. apply in_map_iff in Hx as (j & <- & Hj). apply in_seq in Hj.
      destruct (Nat.eq_dec j (2 + tried)) as [->|N]; [exact Here | apply Taken; lia]. }
    apply NoDup_incl_length in I; [|apply candidates_NoDup].
    rewrite length_map, length_seq in I. lia.
  - simpl. destruct (includes used (baseName ++ decimal (S (S tried)))) eqn:E.
    + apply includes_In in E.
      destruct (IH (S tried)) as (k & Hk & Eq & Free & Below).
      * intros j Hj. destruct (Nat.eq_dec j (2 + tried)) as [->|N]; [exact E | apply Taken; lia].
      * lia.
      * exists k. repeat split; auto. lia.
    + exists (2 + tried). repeat split; auto.
      rewrite <- includes_In. simpl. rewrite E. discriminate.
Qed.

(** X1.  [ensureUniqueName] answers with a name that is not in use: the
    base name itself when it is free, and otherwise the base name followed
    by the smallest number from 2 on whose candidate is free. *)
Theorem ensureUniqueName_fresh (used : list string) (baseName : string) :
  ~ In (ensureUniqueName used baseName) used
  /\ (if includes used baseName
      then exists k,
          2 <= k
          /\ ensureUniqueName used baseName = baseName ++ decimal k
          /\ forall j, 2 <= j < k -> In (baseName ++ decimal j) used
      else ensureUniqueName used baseName = baseName).
Proof.
  unfold ensureUniqueName. destruct (includes used baseName) eqn:E; simpl.
  - destruct (firstFreeSuffix_spec used baseName (List.length used) 0)
      as (k & Hk & Eq & Free & Below); [intros j Hj; lia | lia |].
    simpl in Eq. rewrite Eq. split; [exact Free|]. exists k. repeat split; auto.
  - split; [|reflexivity]. rewrite <- includes_In, E. discriminate.
Qed.

(** X2.  On duplicate-free lists of property names [haveSamePropertyNames]
    decides equality as sets. *)
Theorem haveSamePropertyNames_sets (set1 set2 : list string) :
  NoDup set1 -> NoDup set2 ->
  (haveSamePropertyNames set1 set2 = true <-> forall x, In x set1 <-> In x set2).
Proof.
  intros N1 N2. unfold haveSamePropertyNames.
  rewrite andb_true_iff, Nat.eqb_eq, forallb_forall. split.
  - intros [L I].
    assert (I12 : incl set1 set2) by (intros x Hx; apply includes_In, I, Hx).
    intros x. split; [apply I12|].
    apply (NoDup_length_incl N1); [lia | exact I12].
  - intros S. split.
    + apply Nat.le_antisymm; apply NoDup_incl_length; auto; intros x Hx; apply S, Hx.
    + intros x Hx. apply includes_In, S, Hx.
Qed.

Lemma haveSamePropertyNames_sets_witness :
  haveSamePropertyNames ["a"; "b"] ["b"; "a"] = true
  <-> forall x, In x ["a"; "b"] <-> In x ["b"; "a"].
Proof.
  apply haveSamePropertyNames_sets.
  - repeat constructor; simpl; intuition discriminate.
  - repeat constructor; simpl; intuition discriminate.
Defined.

(** X3.  [findExistingInterface] answers with the earliest registered
    definition that carries the signature, and with nothing exactly when no
    definition carries it. *)
Theorem findExistingInterface_first (structures : list (string * string)) (structure : string) :
  match findExistingInterface structures structure with
  | Some name =>
      exists before after,
        structures = (before ++ (name, structure) :: after)%list
        /\ forall n s, In (n, s) before -> s <> structure
  | None => forall n, ~ In (n, structure) structures
  end.
Proof.
  induction structures as [|[n s] r IH]; simpl.
  - intros n [].
  - destruct (String.eqb s structure) eqn:E.
    + apply String.eqb_eq in E. subst. exists [], r. split; [reflexivity | intros ? ? []].
    + apply String.eqb_neq in E.
      destruct (findExistingInterface r structure) as [name|].
      * destruct IH as (before & after & -> & B).
        exists ((n, s) :: before), after. split; [reflexivity|].
        intros n0 s0 [H|H]; [inversion H; subst; exact E | eapply B, H].
      * intros n0 [H|H]; [inversion H; subst; congruence | eapply IH, H].
Qed.

(** ** Signatures do not depend on the order of the properties *)

Section SortCanonical.

Variable A : Type.
Variable cmp : A -> A -> Z.

Let before (a b : A) : bool := (cmp a b <? 0)%Z.

Hypothesis before_asym : forall a b, before a b = true -> before b a = false.
Hypothesis before_total : forall a b, before a b = false -> before b a = false -> a = b.
Hypothesis before_le : forall a e b, before a e = true -> before b e = false -> before a b = true.

Lemma insert_insert (a b : A) (l : list A) :
  insert cmp a (insert cmp b l) = insert cmp b (insert cmp a l).
Proof.
  induction l as [|e r IH]; simpl.
  - fold (before a b). fold (before b a).
    destruct (before a b) eqn:Eab, (before b a) eqn:Eba; try reflexivity.
    + rewrite (before_asym _ _ Eab) in Eba. discriminate.
    + rewrite (before_total _ _ Eab Eba). reflexivity.
  - fold (before a e). fold (before b e).
    destruct (before a e) eqn:Eae, (before b e) eqn:Ebe; simpl;
      fold (before a e); fold (before b e); fold (before a b); fold (before b a);
      rewrite ?Eae, ?Ebe.
    + destruct (before a b) eqn:Eab, (before b a) eqn:Eba; try reflexivity.
      * rewrite (before_asym _ _ Eab) in Eba. discriminate.
      * rewrite (before_total _ _ Eab Eba). reflexivity.
    + rewrite (before_asym _ _ (before_le _ _ _ Eae Ebe)). reflexivity.
    + rewrite (before_asym _ _ (before_le _ _ _ Ebe Eae)). reflexivity.
    + rewrite IH. reflexivity.
Qed.

Lemma sortBy_Permutation (l l' : list A) :
  Permutation l l' -> sortBy cmp l = sortBy cmp l'.
Proof.
  unfold sortBy. intros P.
  assert (G : forall acc, fold_left (fun acc x => insert cmp x acc) l acc
                          = fold_left (fun acc x => insert cmp x acc) l' acc).
  { induction P; intros acc; simpl.
    - reflexivity.
    - apply IHP.
    - rewrite insert_insert. reflexivity.
    - rewrite IHP1. apply IHP2. }
  apply G.
Qed.

End SortCanonical.

Lemma codeUnit_before (a b : string) :
  (codeUnitCompare a b <? 0)%Z = true <-> String.compare a b = Lt.
Proof.
  unfold codeUnitCompare. destruct (String.compare a b); simpl; split; intros H;
    first [reflexivity | discriminate H].
Qed.

Lemma codeUnit_before_false (a b : string) :
  (codeUnitCompare a b <? 0)%Z = false <-> String.compare a b <> Lt.
Proof.
  rewrite <- codeUnit_before. destruct (codeUnitCompare a b <? 0)%Z; split; congruence.
Qed.

Lemma sort_Permutation (l l' : list string) : Permutation l l' -> sort l = sort l'.
Proof.
  apply sortBy_Permutation.
  - intros a b H. apply codeUnit_before in H. apply codeUnit_before_false.
    rewrite String.compare_antisym, H. discriminate.
  - intros a b H1 H2. apply codeUnit_before_false in H1, H2.
    apply OrderedTypeEx.String_as_OT.cmp_eq. unfold OrderedTypeEx.String_as_OT.cmp.
    rewrite String.compare_antisym in H2.
    destruct (String.compare a b); simpl in *; congruence.
  - intros a e b H1 H2. apply codeUnit_before in H1. apply codeUnit_before_false in H2.
    apply codeUnit_before.
    destruct (String.compare b e) eqn:E; [| congruence |].
    + apply OrderedTypeEx.String_as_OT.cmp_eq in E. subst. exact H1.
    + apply OrderedTypeEx.String_as_OT.cmp_lt.
      apply OrderedTypeEx.String_as_OT.lt_trans with e;
        apply OrderedTypeEx.String_as_OT.cmp_lt; unfold OrderedTypeEx.String_as_OT.cmp;
        [exact H1|].
      rewrite String.compare_antisym, E. reflexivity.
Qed.

(** X4.  The signature of an object, and the signature rebuilt from the
    properties of a merged definition, do not depend on the order in which
    the properties are listed. *)
Theorem structure_order_independent
        (obj obj' : list (string * jsvalue)) (pts : option (jsobj (list string)))
        (props props' : jsobj prop) :
  (Permutation obj obj' ->
   generateInterfaceStructure obj pts = generateInterfaceStructure obj' pts)
  /\ (Permutation props props' ->
      generateInterfaceStructureFromProps props = generateInterfaceStructureFromProps props').
Proof.
  split; intros P.
  - unfold generateInterfaceStructure. f_equal. apply sort_Permutation, Permutation_map, P.
  - unfold generateInterfaceStructureFromProps. f_equal.
    apply sort_Permutation, Permutation_map, P.
Qed.

Lemma structure_order_independent_witness :
  generateInterfaceStructure [("b", JNull); ("a", JNumber 1)] None
  = generateInterfaceStructure [("a", JNumber 1); ("b", JNull)] None
  /\ generateInterfaceStructureFromProps
       [("b", mkProp "null" false); ("a", mkProp "number" true)]
     = generateInterfaceStructureFromProps
         [("a", mkProp "number" true); ("b", mkProp "null" false)].
Proof.
  destruct (structure_order_independent
              [("b", JNull); ("a", JNumber 1)] [("a", JNumber 1); ("b", JNull)] None
              [("b", mkProp "null" false); ("a", mkProp "number" true)]
              [("a", mkProp "number" true); ("b", mkProp "null" false)]) as [S P].
  split; [apply S | apply P]; apply perm_swap.
Defined.

(** ** The union that [mergeInterfaces] writes *)

Lemma insert_Permutation {A} (cmp : A -> A -> Z) (p : A) (l : list A) :
  Permutation (insert cmp p l) (p :: l).
Proof.
  induction l as [|e r IH]; simpl; [reflexivity|].
  destruct (cmp p e <? 0)%Z; [reflexivity|].
  rewrite IH. apply perm_swap.
Qed.

Lemma sortBy_is_Permutation {A} (cmp : A -> A -> Z) (l : list A) :
  Permutation (sortBy cmp l) l.
Proof.
  unfold sortBy.
  assert (G : forall acc, Permutation (fold_left (fun acc x => insert cmp x acc) l acc)
                                      (l ++ acc)).
  { induction l as [|x r IH]; intros acc; simpl; [reflexivity|].
    rewrite IH, insert_Permutation. symmetry. apply Permutation_middle. }
  rewrite G, app_nil_r. reflexivity.
Qed.

Section UnionOrder.

Variable localeCompare : string -> string -> Z.

Lemma insert_nullish (p : string) (l : list string) :
  nullish p = true -> insert (unionOrder localeCompare) p l = (l ++ [p])%list.
Proof.
  intros N. induction l as [|e r IH]; simpl; [reflexivity|].
  unfold unionOrder at 1. unfold nullish in N. rewrite N. simpl. rewrite IH. reflexivity.
Qed.

Lemma insert_before_nullish (p : string) (front back : list string) :
  nullish p = false -> Forall (fun t => nullish t = true) back ->
  insert (unionOrder localeCompare) p (front ++ back)
  = (insert (unionOrder localeCompare) p front ++ back)%list.
Proof.
  intros N B. induction front as [|f fr IH]; simpl.
  - destruct B as [|e r He Hr]; simpl; [reflexivity|].
    unfold unionOrder. unfold nullish in N, He. rewrite N, He. reflexivity.
  - destruct (unionOrder localeCompare p f <? 0)%Z; [reflexivity|].
    rewrite IH. reflexivity.
Qed.

Lemma sortBy_nullish_last (l : list string) :
  exists front back,
    sortBy (unionOrder localeCompare) l = (front ++ back)%list
    /\ Forall (fun t => nullish t = false) front
    /\ Forall (fun t => nullish t = true) back.
Proof.
  unfold sortBy.
  assert (G : forall front back,
             Forall (fun t => nullish t = false) front ->
             Forall (fun t => nullish t = true) back ->
             exists front' back',
               fold_left (fun acc x => insert (unionOrder localeCompare) x acc) l
                         (front ++ back)%list
               = (front' ++ back')%list
               /\ Forall (fun t => nullish t = false) front'
               /\ Forall (fun t => nullish t = true) back').
  { induction l as [|x r IH]; intros front back F B; simpl.
    - exists front, back. auto.
    - destruct (nullish x) eqn:N.
      + rewrite insert_nullish by exact N. rewrite <- app_assoc.
        apply IH; [exact F|]. apply Forall_app. split; [exact B | repeat constructor; exact N].
      + rewrite insert_before_nullish by assumption.
        apply IH; [|exact B].
        apply Forall_forall. intros t I. apply In_insert in I as [->|I]; [exact N|].
        rewrite Forall_forall in F. apply F, I. }
  apply (G [] []); constructor.
Qed.

(** X5.  Where [mergeInterfaces] merges a property into an existing one,
    the union it writes lists each label once, takes its labels from the two
    unions merged, and puts [null] and [undefined] after every other label,
    whatever order the host gives to the others. *)
Theorem mergeProp_union_order (existing : prop) (newType : string) (isOptional : bool) :
  exists front back,
    propType (mergeProp localeCompare existing newType isOptional)
    = join " | " (front ++ back)
    /\ Forall (fun t => nullish t = false) front
    /\ Forall (fun t => nullish t = true) back
    /\ NoDup (front ++ back)
    /\ incl (front ++ back) (parseUnionType (propType existing) ++ parseUnionType newType).
Proof.
  unfold mergeProp. simpl propType.
  set (accumulated := (parseUnionType (propType existing) ++ parseUnionType newType)%list).
  set (all0 := fold_left (fun set t => setAdd t set) accumulated []).
  destruct (setAdd_all accumulated []) as [ND I]. fold all0 in ND, I. cbv zeta in ND, I.
  specialize (ND (NoDup_nil _)).
  set (all := if Nat.ltb 1 (List.length (filter isArrayType all0))
                 && includes (filter isArrayType all0) "unknown[]"
              then setDelete "unknown[]" all0 else all0).
  assert (NDall : NoDup all).
  { unfold all. destruct (_ && _); [apply NoDup_filter, ND | exact ND]. }
  assert (Sub : incl all accumulated).
  { intros x Hx. assert (Hx0 : In x all0).
    { unfold all in Hx. destruct (_ && _); [apply In_setDelete in Hx; tauto | exact Hx]. }
    apply I in Hx0 as [[]|Hx0]. exact Hx0. }
  destruct (sortBy_nullish_last all) as (front & back & E & F & B).
  exists front, back. rewrite <- E. repeat split; auto.
  - eapply Permutation_NoDup; [symmetry; apply sortBy_is_Permutation | exact NDall].
  - intros x Hx. apply Sub. apply In_sortBy in Hx. exact Hx.
Qed.

End UnionOrder.

(** ** Array types and cleaned names *)

Lemma chars_append (a b : string) : chars (a ++ b) = (chars a ++ chars b)%list.
Proof. induction a as [|c r IH]; simpl; [reflexivity | unfold chars in *; simpl; rewrite IH; reflexivity]. Qed.

Lemma isPrefix_app (p z : list ascii) : isPrefix p (p ++ z) = true.
Proof.
  induction p as [|c r IH]; simpl; [reflexivity|]. rewrite Ascii.eqb_refl. exact IH.
Qed.

Lemma endsWith_append (s suffix : string) : endsWith (s ++ suffix) suffix = true.
Proof. unfold endsWith. rewrite chars_append, rev_app_distr. apply isPrefix_app. Qed.

Lemma append_assoc (a b c : string) : (a ++ b) ++ c = a ++ (b ++ c).
Proof. induction a as [|x r IH]; simpl; [reflexivity | rewrite IH; reflexivity]. Qed.

Lemma arrayTypeOf_array (types : list string) : isArrayType (arrayTypeOf types) = true.
Proof.
  assert (P : forall x, isArrayType ("(" ++ x ++ ")[]") = true).
  { intros x. change ("(" ++ x ++ ")[]") with ("(" ++ (x ++ (")" ++ "[]"))).
    rewrite <- !append_assoc. apply endsWith_append. }
  unfold arrayTypeOf. destruct types as [|t [|u r]].
  - reflexivity.
  - apply endsWith_append.
  - destruct (filter _ _) as [|c [|d q]]; [apply P | apply endsWith_append | apply P].
Qed.

Lemma generateArrayType_array
      (localeCompare : string -> string -> Z) fuel arr suggestedName g ty g' :
  generateArrayType localeCompare fuel arr suggestedName g = Ok (ty, g') ->
  isArrayType ty = true.
Proof.
  intros H. destruct fuel as [|f]; [discriminate|].
  rewrite generateArrayType_unfold in H.
  split_bind H as scanned g1 Hscan. destruct scanned as [types shapes].
  destruct shapes as [|firstObj others].
  - inv_ret H. apply arrayTypeOf_array.
  - split_bind H as itemName g2 Hitem. cbv zeta in H.
    destruct (forallb _ others).
    + split_bind H as objectType g3 Hobj. inv_ret H. apply arrayTypeOf_array.
    + split_bind H as mergedShape g3 Hmerge. split_bind H as objectType g4 Hobj.
      inv_ret H. apply arrayTypeOf_array.
Qed.

(** X6.  Whatever [generateArrayType] returns ends in [[]]; this is what
    the removal of a redundant [unknown[]] recognises an array type by. *)
Theorem generateArrayType_ends_in_brackets
        (localeCompare : string -> string -> Z) fuel arr suggestedName g ty g' :
  generateArrayType localeCompare fuel arr suggestedName g = Ok (ty, g') ->
  isArrayType ty = true.
Proof. apply generateArrayType_array. Qed.

Lemma generateArrayType_ends_in_brackets_witness :
  generateArrayType codeUnitCompare 1 [JNumber 1; JString "s"] NoName cleared
  = Ok ("(number | string)[]", cleared)
  /\ isArrayType "(number | string)[]" = true.
Proof.
  split; [vm_compute; reflexivity|].
  apply (generateArrayType_ends_in_brackets codeUnitCompare 1
           [JNumber 1; JString "s"] NoName cleared "(number | string)[]" cleared).
  vm_compute. reflexivity.
Defined.

Lemma upperChar_not_lower (c : ascii) : isLower (upperChar c) = false.
Proof. destruct c as [[] [] [] [] [] [] [] []]; reflexivity. Qed.

(** X7.  A name cleaned by [generateCleanInterfaceName] is never empty and
    never starts with a lower-case letter. *)
Theorem generateCleanInterfaceName_capitalized
        (suggestedName : nameHint) (isGeneric : bool) (name : string) :
  generateCleanInterfaceName suggestedName isGeneric = Ok name ->
  truthy name = true /\ startsLower name = false.
Proof.
  destruct suggestedName as [s| |]; simpl.
  - destruct s as [|c r].
    + intros H. inversion H. destruct isGeneric; split; reflexivity.
    + set (cleaned := singularize _).
      intros H. inversion H as [E]. clear H E.
      destruct (capitalize cleaned) as [|d q] eqn:C; simpl; [split; reflexivity|].
      split; [reflexivity|].
      destruct cleaned as [|x y]; simpl in C; [discriminate|].
      inversion C. apply upperChar_not_lower.
  - intros H. inversion H. destruct isGeneric; split; reflexivity.
  - discriminate.
Qed.

Lemma generateCleanInterfaceName_capitalized_witness :
  truthy "Category" = true /\ startsLower "Category" = false.
Proof.
  apply (generateCleanInterfaceName_capitalized (Name "categories") false "Category").
  reflexivity.
Defined.

(** ** What a run does to the registry *)

Lemma keys_mapSet_list {V} (k : string) (v : V) (m : list (string * V)) :
  keys (mapSet k v m) = if includes (keys m) k then keys m else (keys m ++ [k])%list.
Proof.
  induction m as [|[k' v'] r IH]; simpl; [reflexivity|].
  rewrite (String.eqb_sym k k'). destruct (String.eqb k' k) eqn:E; simpl.
  - apply String.eqb_eq in E. subst. reflexivity.
  - rewrite IH. unfold includes. destruct (existsb _ (keys r)); reflexivity.
Qed.

Lemma NoDup_snoc (k : string) (l : list string) :
  NoDup l -> ~ In k l -> NoDup (l ++ [k]).
Proof.
  intros N I. induction N as [|x r Hx Hr IH]; simpl.
  - constructor; [intros [] | constructor].
  - constructor.
    + rewrite in_app_iff. simpl. intros [H|[H|[]]]; [contradiction|].
      subst. apply I. left. reflexivity.
    + apply IH. intros H. apply I. right. exact H.
Qed.

Lemma extends_refl (g : generator) : extends g g.
Proof. unfold extends. split; [apply incl_refl|]. split; [apply incl_refl | auto]. Qed.

Lemma extends_trans (g1 g2 g3 : generator) : extends g1 g2 -> extends g2 g3 -> extends g1 g3.
Proof.
  intros (A1 & B1 & C1) (A2 & B2 & C2). unfold extends. split; [|split].
  - eapply incl_tran; eassumption.
  - eapply incl_tran; eassumption.
  - intros W. apply C2, C1, W.
Qed.

Lemma extends_register (uniqueName content structure : string) (g : generator) :
  truthy uniqueName = true -> extends g (register uniqueName content structure g).
Proof.
  intros T. unfold extends, wellFormed. simpl. rewrite !keys_mapSet_list. split; [|split].
  - destruct (includes _ _); [apply incl_refl | apply incl_appl, incl_refl].
  - intros x Hx. apply In_setAdd. right. exact Hx.
  - intros (E & N & U & NU & F). rewrite <- E. split; [reflexivity|]. split; [|split; [|split]].
    + destruct (includes (keys (interfaces g)) uniqueName) eqn:I; [exact N|].
      apply NoDup_snoc; [exact N|]. rewrite <- includes_In, I. discriminate.
    + intros x Hx. apply In_setAdd.
      destruct (includes (keys (interfaces g)) uniqueName); [right; apply U, Hx|].
      apply in_app_iff in Hx as [Hx|[->|[]]]; [right; apply U, Hx | left; reflexivity].
    + apply NoDup_setAdd, NU.
    + destruct (includes (keys (interfaces g)) uniqueName); [exact F|].
      apply Forall_app. split; [exact F | repeat constructor; exact T].
Qed.

Lemma extends_updateMerged (existingName content structure : string) (g : generator) :
  In existingName (keys (interfaces g)) ->
  extends g (updateMerged existingName content structure g).
Proof.
  intros I. unfold extends, wellFormed. simpl. rewrite !keys_mapSet_list.
  apply includes_In in I as I'. rewrite I'.
  split; [apply incl_refl|]. split; [apply incl_refl|].
  intros (E & N & U & NU & F). rewrite <- E, I'. auto.
Qed.

Lemma interfaceNameOf_truthy (suggestedName : nameHint) (baseName : string) :
  interfaceNameOf suggestedName = Ok (Name baseName) -> truthy baseName = true.
Proof.
  destruct suggestedName as [s| |]; simpl.
  - destruct (truthy s) eqn:T; intros H; inversion H; subst; [exact T | reflexivity].
  - intros H. inversion H. reflexivity.
  - discriminate.
Qed.

Lemma scanItems_extends nested suggestedName arr :
  (forall items g t g', nested items suggestedName g = Ok (t, g') -> extends g g') ->
  forall types shapes g result g',
    scanItems nested arr suggestedName types shapes g = Ok (result, g') -> extends g g'.
Proof.
  intros N. induction arr as [|item rest IH]; intros types shapes g result g' H; simpl in H.
  - inv_ret H. apply extends_refl.
  - destruct item; try (eapply IH; exact H).
    split_bind H as t g1 Hn. eapply extends_trans; [eapply N, Hn | eapply IH, H].
Qed.

Lemma objectFields_extends generateType pts entries :
  (forall value hint g t g', generateType value hint g = Ok (t, g') -> extends g g') ->
  forall g lines g', objectFields generateType entries pts g = Ok (lines, g') -> extends g g'.
Proof.
  intros T. induction entries as [|[key value] rest IH]; intros g lines g' H; simpl in H.
  - inv_ret H. apply extends_refl.
  - split_bind H as field g1 Hf. split_bind H as lines' g2 Hl. inv_ret H.
    eapply extends_trans; [|eapply IH, Hl].
    destruct (match pts with Some p => assoc key p | None => None end).
    + inv_ret Hf. apply extends_refl.
    + split_bind Hf as t g3 Ht. inv_ret Hf. eapply T, Ht.
Qed.

Lemma mergeProps_extends localeCompare generateType pts entries :
  (forall value hint g t g', generateType value hint g = Ok (t, g') -> extends g g') ->
  forall mergedProps g result g',
    mergeProps localeCompare generateType entries pts mergedProps g = Ok (result, g') ->
    extends g g'.
Proof.
  intros T. induction entries as [|[key value] rest IH]; intros mergedProps g result g' H;
    simpl in H.
  - inv_ret H. apply extends_refl.
  - split_bind H as new g1 Hn.
    assert (E : extends g g1).
    { destruct (match pts with Some p => assoc key p | None => None end).
      - inv_ret Hn. apply extends_refl.
      - split_bind Hn as t g3 Ht. inv_ret Hn. eapply T, Ht. }
    destruct (objGet key mergedProps); [| discriminate H |];
      (eapply extends_trans; [exact E | eapply IH, H]).
Qed.

Lemma mergeEntries_extends generateArrayType generateObjectType entries :
  (forall items hint g t g', generateArrayType items hint g = Ok (t, g') -> extends g g') ->
  (forall fields hint g t g', generateObjectType fields hint g = Ok (t, g') -> extends g g') ->
  forall seenKeys acc g result g',
    mergeEntries generateArrayType generateObjectType entries seenKeys acc g
    = Ok (result, g') ->
    extends g g'.
Proof.
  intros A O. induction entries as [|[key value] rest IH];
    intros seenKeys acc g result g' H; simpl in H.
  - inv_ret H. apply extends_refl.
  - assert (V : forall g0 t g1,
               match value with
               | JNull => ret "null"
               | JUndefined => ret "undefined"
               | JArray items => generateArrayType items (generateCleanChildName key)
               | JObject fields => generateObjectType fields (generateCleanChildName key)
               | JBoolean _ | JNumber _ | JString _ | JOther _ => ret (typeOf value)
               end g0 = Ok (t, g1) -> extends g0 g1).
    { intros g0 t g1 Hv. destruct value;
        try (inv_ret Hv; apply extends_refl); [eapply A, Hv | eapply O, Hv]. }
    destruct (objGet key (accTypes acc)).
    + split_bind H as t g1 Hv. eapply extends_trans; [eapply V, Hv | eapply IH, H].
    + split_bind H as t g1 Hv. discriminate H.
    + split_bind H as t g1 Hv. eapply extends_trans; [eapply V, Hv | eapply IH, H].
Qed.

Lemma mergeObjects_extends generateArrayType generateObjectType objects :
  (forall items hint g t g', generateArrayType items hint g = Ok (t, g') -> extends g g') ->
  (forall fields hint g t g', generateObjectType fields hint g = Ok (t, g') -> extends g g') ->
  forall acc g result g',
    mergeObjects generateArrayType generateObjectType objects acc g = Ok (result, g') ->
    extends g g'.
Proof.
  intros A O. induction objects as [|obj rest IH]; intros acc g result g' H; simpl in H.
  - inv_ret H. apply extends_refl.
  - split_bind H as seen g1 Hs. destruct seen as [seenKeys acc1].
    eapply extends_trans; [eapply mergeEntries_extends; eassumption | eapply IH, H].
Qed.

Section RegistryInvariant.

Variable localeCompare : string -> string -> Z.

Lemma all_extend (fuel : nat) :
  (forall value hint g t g',
      generateType localeCompare fuel value hint g = Ok (t, g') -> extends g g')
  /\ (forall arr hint g t g',
         generateArrayType localeCompare fuel arr hint g = Ok (t, g') -> extends g g')
  /\ (forall obj hint pts g t g',
         generateObjectType localeCompare fuel obj hint pts g = Ok (t, g') -> extends g g')
  /\ (forall name obj pts g t g',
         mergeInterfaces localeCompare fuel name obj pts g = Ok (t, g') -> extends g g')
  /\ (forall objects g m g',
         mergeObjectsWithUnionTypes localeCompare fuel objects g = Ok (m, g') ->
         extends g g').
Proof.
  induction fuel as [|f (IHt & IHa & IHo & IHi & IHm)];
    [repeat split; intros; discriminate|].
  split; [|split; [|split; [|split]]].
  - intros value hint g t g' H. destruct value; simpl in H;
      try (inv_ret H; apply extends_refl); [eapply IHa, H | eapply IHo, H].
  - intros arr hint g t g' H. rewrite generateArrayType_unfold in H.
    split_bind H as scanned g1 Hscan. destruct scanned as [types shapes].
    apply scanItems_extends in Hscan; [|intros; eapply IHa; eassumption].
    eapply extends_trans; [exact Hscan|]. clear Hscan.
    destruct shapes as [|firstObj others]; [inv_ret H; apply extends_refl|].
    split_bind H as itemName g2 Hitem. inv_lift Hitem. cbv zeta in H.
    destruct (forallb _ others).
    + split_bind H as objectType g3 Hobj. inv_ret H. eapply IHo, Hobj.
    + split_bind H as mergedShape g3 Hmerge. split_bind H as objectType g4 Hobj. inv_ret H.
      eapply extends_trans; [eapply IHm, Hmerge | eapply IHo, Hobj].
  - intros obj hint pts g t g' H. rewrite generateObjectType_unfold in H.
    split_bind H as interfaceName g0 Hname. inv_lift Hname. cbv zeta in H.
    split_bind H as gNow g1 Hget. inv_get Hget.
    destruct (whenTruthy (findExistingInterface _ _)); [inv_ret H; apply extends_refl|].
    split_bind H as similarInterface g2 Hsim. inv_lift Hsim.
    destruct (whenTruthy similarInterface); [eapply IHi, H|].
    destruct interfaceName as [baseName| |]; try discriminate H.
    split_bind H as lines g3 Hfields. split_bind H as u g4 Hmod. inv_modify Hmod. inv_ret H.
    eapply extends_trans.
    + eapply objectFields_extends; [|exact Hfields]. intros; eapply IHt; eassumption.
    + apply extends_register, ensureUniqueName_truthy, (interfaceNameOf_truthy _ _ Hname).
  - intros name obj pts g t g' H. rewrite mergeInterfaces_unfold in H.
    split_bind H as gNow g1 Hget. inv_get Hget.
    destruct (whenTruthy (assoc name (interfaces _))) as [content|] eqn:C;
      [|inv_ret H; apply extends_refl].
    split_bind H as mergedProps g2 Hprops. split_bind H as u g3 Hmod. inv_modify Hmod.
    inv_ret H.
    apply mergeProps_extends in Hprops; [|intros; eapply IHt; eassumption].
    eapply extends_trans; [exact Hprops|].
    apply extends_updateMerged. apply (proj1 Hprops).
    apply whenTruthy_Some in C as [C _]. apply assoc_keys. eauto.
  - intros objects g m g' H. rewrite mergeObjectsWithUnionTypes_unfold in H.
    split_bind H as acc g1 Hacc. inv_ret H.
    eapply mergeObjects_extends; [| |exact Hacc]; intros; cbv beta in *.
    + eapply IHa; eassumption.
    + eapply IHo; eassumption.
Qed.

Lemma wellFormed_cleared : wellFormed cleared.
Proof. repeat split; simpl; try constructor. intros x []. Qed.

(** X8.  When a run of [generateFromJson] returns, the registry it leaves
    holds its definitions and their signatures under the same names in the
    same order; every name occurs once, is non-empty and is in the set of
    used names. *)
Theorem generateFromJson_registry (json : jsvalue) (rootName : option string)
        (g : generator) (out : string) (g' : generator) :
  generateFromJson localeCompare json rootName g = Ok (out, g') -> wellFormed g'.
Proof.
  unfold generateFromJson. intros H.
  split_bind H as u g1 Hclear. inv_modify Hclear.
  split_bind H as rootType g2 Hroot. split_bind H as gNow g3 Hget. inv_get Hget. inv_ret H.
  apply (proj1 (all_extend _)) in Hroot. apply Hroot, wellFormed_cleared.
Qed.

(** X9.  No step of the inference removes a definition or releases a name:
    what [generateType] leaves holds every definition name and every used
    name it found. *)
Theorem generateType_keeps_definitions fuel value suggestedName g ty g' :
  generateType localeCompare fuel value suggestedName g = Ok (ty, g') ->
  incl (keys (interfaces g)) (keys (interfaces g'))
  /\ incl (usedNames g) (usedNames g').
Proof.
  intros H. apply (proj1 (all_extend _)) in H. destruct H as (A & B & _). auto.
Qed.

(** X10.  In a registry kept as above, the name that [generateObjectType]
    returns is the name of a definition of the registry it leaves, and is
    not empty. *)
Theorem generateObjectType_returns_definition fuel obj suggestedName pts g name g' :
  wellFormed g ->
  generateObjectType localeCompare fuel obj suggestedName pts g = Ok (name, g') ->
  In name (keys (interfaces g')) /\ truthy name = true /\ wellFormed g'.
Proof.
  intros W H.
  pose proof (proj1 (proj2 (proj2 (all_extend fuel))) _ _ _ _ _ _ H) as (Keys & _ & Keep).
  specialize (Keep W).
  assert (In name (keys (interfaces g'))) as Def.
  { destruct fuel as [|f]; [discriminate|].
    rewrite generateObjectType_unfold in H.
    split_bind H as interfaceName g0 Hname. inv_lift Hname. cbv zeta in H.
    split_bind H as gNow g1 Hget. inv_get Hget.
    destruct W as (E & _).
    destruct (whenTruthy (findExistingInterface _ _)) as [existing|] eqn:Hexact.
    - inv_ret H. apply whenTruthy_Some in Hexact as [Hexact _].
      apply findExistingInterface_registered in Hexact. rewrite E. exact Hexact.
    - split_bind H as similarInterface g2 Hsim. inv_lift Hsim.
      destruct (whenTruthy similarInterface) as [similar|] eqn:Hsimilar.
      + apply mergeInterfaces_name in H as Hn. subst name.
        apply whenTruthy_Some in Hsimilar as [-> _].
        destruct interfaceName as [baseName| |]; simpl in Hsim; try discriminate.
        inversion Hsim as [Hs].
        apply findSimilarLoop_registered in Hs. apply Keys. rewrite E. exact Hs.
      + destruct interfaceName as [baseName| |]; try discriminate H.
        split_bind H as lines g3 Hfields. split_bind H as u g4 Hmod. inv_modify Hmod.
        inv_ret H. simpl. apply keys_mapSet_here. }
  split; [exact Def|]. split; [|exact Keep].
  destruct Keep as (_ & _ & _ & _ & F). rewrite Forall_forall in F. apply F, Def.
Qed.

End RegistryInvariant.

Lemma generateFromJson_registry_witness :
  wellFormed
    {| interfaces := [("Item", interfaceText "Item" ["  a: number | null;"])];
       interfaceStructures := [("Item", "a:(null|number)")];
       usedNames := ["Item"];
       structureToNames := [("a:(null|number)", ["Item"])] |}.
Proof.
  apply (generateFromJson_registry codeUnitCompare nullArray None cleared
           (listing [ interfaceText "Item" ["  a: number | null;"];
                      "export type RootInterface = Item[];" ])).
  vm_compute. reflexivity.
Defined.

Lemma generateType_keeps_definitions_witness :
  incl (keys (interfaces (register "A" "" "x:number" cleared)))
       (keys (interfaces (register "B" (interfaceText "B" ["  y: number;"]) "y:number"
                            (register "A" "" "x:number" cleared))))
  /\ incl (usedNames (register "A" "" "x:number" cleared))
          (usedNames (register "B" (interfaceText "B" ["  y: number;"]) "y:number"
                        (register "A" "" "x:number" cleared))).
Proof.
  apply (generateType_keeps_definitions codeUnitCompare 3 (JObject [("y", one)]) (Name "B")
           (register "A" "" "x:number" cleared) "B").
  vm_compute. reflexivity.
Defined.

Lemma generateObjectType_returns_definition_witness :
  In "Item" (keys (interfaces (register "Item" (interfaceText "Item" ["  a: number;"])
                                 "a:number" cleared)))
  /\ truthy "Item" = true
  /\ wellFormed (register "Item" (interfaceText "Item" ["  a: number;"]) "a:number" cleared).
Proof.
  apply (generateObjectType_returns_definition codeUnitCompare 2 [("a", one)] (Name "Item")
           None cleared).
  - apply wellFormed_cleared.
  - vm_compute. reflexivity.
Defined.

(** ** The root of the input *)

Lemma ofChars_chars (s : string) : ofChars (chars s) = s.
Proof. apply string_of_list_ascii_of_string. Qed.

Lemma chars_ofChars (l : list ascii) : chars (ofChars l) = l.
Proof. apply list_ascii_of_string_of_list_ascii. Qed.

Lemma trim_id (s : string) (c d : ascii) (r f : list ascii) :
  chars s = c :: r -> chars s = (f ++ [d])%list ->
  isSpace c = false -> isSpace d = false ->
  trim s = s.
Proof.
  intros Hc Hd Sc Sd. unfold trim.
  assert (E1 : dropWhile isSpace (chars s) = chars s) by (rewrite Hc; simpl; rewrite Sc; reflexivity).
  rewrite E1, Hd, rev_app_distr. simpl. rewrite Sd.
  change (d :: rev f) with (rev [d] ++ rev f)%list.
  rewrite <- rev_app_distr, rev_involutive, <- Hd. apply ofChars_chars.
Qed.

Lemma alias_trimmed (name ty : string) :
  trim ("export type " ++ name ++ " = " ++ ty ++ ";")
  = "export type " ++ name ++ " = " ++ ty ++ ";".
Proof.
  eapply trim_id with (c := ch "e") (d := ch ";")
                      (f := chars ("export type " ++ name ++ " = " ++ ty)).
  - reflexivity.
  - rewrite <- (chars_append _ ";"), !append_assoc. reflexivity.
  - reflexivity.
  - reflexivity.
Qed.

Section Roots.

Variable localeCompare : string -> string -> Z.

(** X11.  For a root that is an object and a non-empty root name, a run that
    returns has registered a definition under the root name itself, and its
    text is the definitions alone, without a root alias. *)
Theorem object_root_named_after_root
        (entries : list (string * jsvalue)) (rootName : option string)
        (g : generator) (out : string) (g' : generator) :
  truthy (rootNameOf rootName) = true ->
  generateFromJson localeCompare (JObject entries) rootName g = Ok (out, g') ->
  mapHas (rootNameOf rootName) (interfaces g') = true
  /\ out = trim (definitionsText g').
Proof.
  intros T H. unfold generateFromJson in H. fold (rootNameOf rootName) in H.
  set (name := rootNameOf rootName) in *.
  split_bind H as u g1 Hclear. inv_modify Hclear.
  split_bind H as rootType g2 Hroot. split_bind H as gNow g3 Hget. inv_get Hget. inv_ret H.
  match type of Hroot with
  | _ = Ok (_, ?final) => assert (Has : mapHas name (interfaces final) = true)
  end.
  { unfold fuelFor in Hroot.
    replace (3 * depth (JObject entries) + 3)
      with (S (S (3 * depth (JObject entries) + 1))) in Hroot by lia.
    change (generateType localeCompare (S (S (3 * depth (JObject entries) + 1)))
                         (JObject entries) (Name name))
      with (generateObjectType localeCompare (S (3 * depth (JObject entries) + 1))
                               entries (Name name) None) in Hroot.
    rewrite generateObjectType_unfold in Hroot.
    unfold bind at 1 in Hroot. simpl in Hroot. rewrite T in Hroot. simpl in Hroot.
    unfold bind at 1 in Hroot. simpl in Hroot.
    unfold bind at 1 in Hroot. simpl in Hroot.
    split_bind Hroot as lines g4 Hfields. split_bind Hroot as u' g5 Hmod.
    inv_modify Hmod. inv_ret Hroot. simpl.
    change (ensureUniqueName [] name) with name.
    unfold mapHas. destruct (proj1 (assoc_keys name _) (keys_mapSet_here name
      (interfaceText name lines) (interfaces g4))) as (v & ->). reflexivity. }
  split; [exact Has|]. unfold renderOutput. rewrite Has. reflexivity.
Qed.

(** X12.  For a root without any object in it the registry stays empty and
    the text is the root alias alone, binding the root name to the type of
    the value. *)
Theorem object_free_root_is_alias (json : jsvalue) (rootName : option string) (g : generator) :
  objectFree json = true ->
  exists ty,
    generateFromJson localeCompare json rootName g
    = Ok ("export type " ++ rootNameOf rootName ++ " = " ++ ty ++ ";", cleared)
    /\ match json with
       | JNull => ty = "null"
       | JUndefined => ty = "undefined"
       | JBoolean _ => ty = "boolean"
       | JNumber _ => ty = "number"
       | JString _ => ty = "string"
       | JOther _ => ty = "unknown"
       | JArray [] => ty = "unknown[]"
       | JArray (_ :: _) | JObject _ => isArrayType ty = true
       end.
Proof.
  intros F.
  destruct (proj1 (objectFree_typed localeCompare (fuelFor json)) json
                  (Name (rootNameOf rootName)) cleared F) as (ty & E).
  { unfold fuelFor. lia. }
  exists ty. split.
  - unfold generateFromJson. fold (rootNameOf rootName).
    unfold bind, modify, get, ret. rewrite E.
    change (renderOutput cleared (rootNameOf rootName) ty)
      with (trim ("export type " ++ rootNameOf rootName ++ " = " ++ ty ++ ";")).
    rewrite alias_trimmed. reflexivity.
  - unfold fuelFor in E.
    replace (3 * depth json + 3) with (S (S (3 * depth json + 1))) in E by lia.
    destruct json as [| | | | |items| |]; try discriminate F;
      try (simpl in E; inversion E; reflexivity).
    change (generateType localeCompare (S (S (3 * depth (JArray items) + 1)))
                         (JArray items) (Name (rootNameOf rootName)))
      with (generateArrayType localeCompare (S (3 * depth (JArray items) + 1))
                              items (Name (rootNameOf rootName))) in E.
    destruct items as [|first rest].
    + rewrite generateArrayType_unfold in E. simpl in E. inversion E. reflexivity.
    + eapply generateArrayType_array. exact E.
Qed.

End Roots.

Lemma object_root_named_after_root_witness :
  mapHas (rootNameOf (Some "Shop"))
         (interfaces (register "Shop" (interfaceText "Shop" ["  open: boolean;"])
                        "open:boolean" cleared)) = true
  /\ interfaceText "Shop" ["  open: boolean;"]
     = trim (definitionsText (register "Shop" (interfaceText "Shop" ["  open: boolean;"])
                                "open:boolean" cleared)).
Proof.
  apply (object_root_named_after_root codeUnitCompare [("open", JBoolean true)]
           (Some "Shop") cleared).
  - reflexivity.
  - vm_compute. reflexivity.
Defined.

Lemma object_free_root_is_alias_witness :
  exists ty,
    generateFromJson codeUnitCompare (JArray [JNumber 1; JNull]) None cleared
    = Ok ("export type " ++ rootNameOf None ++ " = " ++ ty ++ ";", cleared)
    /\ isArrayType ty = true.
Proof.
  apply (object_free_root_is_alias codeUnitCompare (JArray [JNumber 1; JNull]) None cleared).
  reflexivity.
Defined.

(** ** Arrays whose objects share a signature *)

Lemma scanItems_objects nested suggestedName arr :
  forall types shapes g,
    scanItems nested arr suggestedName types shapes g
    = match scanItems nested (withoutObjects arr) suggestedName types [] g with
      | Ok ((types', _), g') => Ok ((types', shapes ++ objectElements arr)%list, g')
      | TypeError msg => TypeError msg
      | OutOfFuel => OutOfFuel
      end.
Proof.
  induction arr as [|item rest IH]; intros types shapes g.
  - simpl. unfold ret. rewrite app_nil_r. reflexivity.
  - destruct item; simpl; try apply IH.
    + unfold bind. destruct (nested items suggestedName g) as [[t g1]| |]; auto.
    + rewrite IH, <- app_assoc. reflexivity.
Qed.

Lemma withoutObjects_idem (arr : list jsvalue) :
  withoutObjects (withoutObjects arr) = withoutObjects arr.
Proof.
  unfold withoutObjects. induction arr as [|item rest IH]; simpl; [reflexivity|].
  destruct (negb (isObject item)) eqn:E; simpl; [rewrite E, IH; reflexivity | exact IH].
Qed.

Lemma objectElements_withoutObjects (arr : list jsvalue) :
  objectElements (withoutObjects arr) = [].
Proof.
  unfold withoutObjects. induction arr as [|item rest IH]; simpl; [reflexivity|].
  destruct item; simpl; exact IH.
Qed.

Lemma keepFirstObject_spec (arr : list jsvalue) :
  withoutObjects (keepFirstObject arr) = withoutObjects arr
  /\ objectElements (keepFirstObject arr) = firstn 1 (objectElements arr).
Proof.
  induction arr as [|item rest [IH1 IH2]]; simpl; [auto|].
  destruct item; simpl; try (unfold withoutObjects in *; simpl; rewrite IH1; auto).
  fold (withoutObjects rest). rewrite withoutObjects_idem, objectElements_withoutObjects. auto.
Qed.

(** X13.  When the object elements of an array all have the signature of
    the first one, the array is typed as if the later ones were not there:
    beyond their one-level signature they are never looked at. *)
Theorem homogeneous_array_typed_from_first_object
        (localeCompare : string -> string -> Z)
        fuel arr suggestedName g firstObj others :
  objectElements arr = firstObj :: others ->
  forallb (fun o => sameStructure o firstObj) others = true ->
  generateArrayType localeCompare fuel arr suggestedName g
  = generateArrayType localeCompare fuel (keepFirstObject arr) suggestedName g.
Proof.
  intros Hobjects Hsame. destruct fuel as [|f]; [reflexivity|].
  rewrite !generateArrayType_unfold. unfold bind.
  rewrite (scanItems_objects _ _ arr), (scanItems_objects _ _ (keepFirstObject arr)).
  destruct (keepFirstObject_spec arr) as [-> ->]. rewrite Hobjects. simpl.
  destruct (scanItems _ (withoutObjects arr) suggestedName [] [] g) as [[[types ?] g1]| |];
    try reflexivity.
  destruct (lift (generateCleanInterfaceName suggestedName false) g1) as [[itemName g2]| |];
    try reflexivity.
  change (forallb _ others) with (forallb (fun o => sameStructure o firstObj) others).
  rewrite Hsame. reflexivity.
Qed.

Lemma homogeneous_array_typed_from_first_object_witness :
  generateArrayType codeUnitCompare 4
    [ JObject [("a", JObject [("x", one)])]; JNull; JObject [("a", JObject [("y", JString "s")])] ]
    NoName cleared
  = generateArrayType codeUnitCompare 4
      (keepFirstObject
         [ JObject [("a", JObject [("x", one)])]; JNull;
           JObject [("a", JObject [("y", JString "s")])] ])
      NoName cleared.
Proof.
  apply (homogeneous_array_typed_from_first_object codeUnitCompare 4 _ NoName cleared
           [("a", JObject [("x", one)])] [[("a", JObject [("y", JString "s")])]]).
  - reflexivity.
  - reflexivity.
Defined.

(** ** The merged shape *)

Lemma mapHas_keys {V} (k : string) (o : list (string * V)) : mapHas k o = includes (keys o) k.
Proof.
  unfold mapHas. destruct (assoc k o) as [v|] eqn:E.
  - symmetry. apply includes_In, assoc_keys. eauto.
  - destruct (includes (keys o) k) eqn:I; [|reflexivity].
    apply includes_In, assoc_keys in I as (v & Hv). congruence.
Qed.

Lemma keys_objInsertIndex_congr {V W} (i : N) (k : string) (v : V) (w : W)
      (o1 : jsobj V) (o2 : jsobj W) :
  keys o1 = keys o2 -> keys (objInsertIndex i k v o1) = keys (objInsertIndex i k w o2).
Proof.
  revert o2. induction o1 as [|[k1 v1] r1 IH]; intros [|[k2 v2] r2] E; simpl in *;
    try discriminate; [reflexivity|].
  inversion E as [[E1 E2]]. subst k2.
  destruct (arrayIndex k1) as [j|]; [destruct (j <? i)%N|]; simpl;
    rewrite ?E2; try reflexivity.
  f_equal. apply IH, E2.
Qed.

Lemma keys_objSet_congr {V W} (k : string) (v : V) (w : W) (o1 : jsobj V) (o2 : jsobj W) :
  keys o1 = keys o2 -> keys (objSet k v o1) = keys (objSet k w o2).
Proof.
  intros E. unfold objSet. destruct (String.eqb k "__proto__"); [exact E|].
  rewrite !mapHas_keys, <- E. destruct (includes (keys o1) k).
  - rewrite !keys_mapSet_list, <- E. reflexivity.
  - destruct (arrayIndex k); [apply keys_objInsertIndex_congr, E|].
    unfold keys in *. rewrite !map_app, E. reflexivity.
Qed.

Lemma keys_mapSet_existing {V} (k : string) (v : V) (o : list (string * V)) :
  In k (keys o) -> keys (mapSet k v o) = keys o.
Proof. intros I. rewrite keys_mapSet_list. apply includes_In in I. rewrite I. reflexivity. Qed.

Lemma keys_objSet_existing {V} (k : string) (v : V) (o : jsobj V) :
  In k (keys o) -> keys (objSet k v o) = keys o.
Proof.
  intros I. unfold objSet. destruct (String.eqb k "__proto__"); [reflexivity|].
  rewrite mapHas_keys. apply includes_In in I as I'. rewrite I'.
  apply keys_mapSet_existing, I.
Qed.

Lemma keys_update_existing {V} (k : string) (f : V -> V) (o : list (string * V)) :
  keys match assoc k o with Some x => mapSet k (f x) o | None => o end = keys o.
Proof.
  destruct (assoc k o) eqn:E; [|reflexivity].
  apply keys_mapSet_existing, assoc_keys. eauto.
Qed.

Lemma keys_types_update (key valueType : string) (types0 : jsobj (list string)) :
  keys match assoc key types0 with
       | Some set => mapSet key (setAdd valueType set) types0
       | None => types0
       end = keys types0.
Proof. exact (keys_update_existing key (setAdd valueType) types0). Qed.

Lemma keys_occurrences_update (key : string) (occ0 : jsobj nat) :
  keys match assoc key occ0 with
       | Some n => mapSet key (S n) occ0
       | None => occ0
       end = keys occ0.
Proof. exact (keys_update_existing key S occ0). Qed.

Lemma objGet_Own_key {V} (k : string) (o : jsobj V) (v : V) :
  objGet k o = Own v -> In k (keys o).
Proof.
  unfold objGet. destruct (assoc k o) eqn:E.
  - intros _. apply assoc_keys. eauto.
  - destruct (includes protoKeys k); discriminate.
Qed.

Lemma objGet_Absent_key {V} (k : string) (o : jsobj V) :
  objGet k o = Absent -> ~ In k (keys o) /\ includes protoKeys k = false.
Proof.
  unfold objGet. destruct (assoc k o) eqn:E; [discriminate|].
  destruct (includes protoKeys k); [discriminate|]. intros _. split; [|reflexivity].
  intros I. apply assoc_keys in I as (v & Hv). congruence.
Qed.

Lemma objGet_fresh {V} (k : string) (o : jsobj V) :
  ~ In k (keys o) -> includes protoKeys k = false -> objGet k o = Absent.
Proof.
  intros I P. unfold objGet. destruct (assoc k o) eqn:E.
  - exfalso. apply I, assoc_keys. eauto.
  - rewrite P. reflexivity.
Qed.

(** One entry of one object: what it does to the accumulators. *)
Lemma mergeEntries_inStep generateArrayType generateObjectType entries :
  forall seenKeys acc g seen acc' g',
    inStep acc ->
    mergeEntries generateArrayType generateObjectType entries seenKeys acc g
    = Ok ((seen, acc'), g') ->
    inStep acc'
    /\ (forall x, In x (keys (accTypes acc')) <->
                  In x (keys (accTypes acc)) \/ In x (keys entries)).
Proof.
  induction entries as [|[key value] rest IH]; intros seenKeys acc g seen acc' g' S H.
  - simpl in H. inv_ret H. split; [exact S | simpl; tauto].
  - simpl in H. destruct S as (Es & Eo & P).
    destruct (objGet key (accTypes acc)) as [set| |] eqn:G.
    + split_bind H as valueType g1 Hv.
      apply objGet_Own_key in G as K.
      apply IH in H.
      * destruct H as [S' In']. split; [exact S'|]. intros x. rewrite In'. cbn [accTypes accShape accOccurrences].
        rewrite keys_types_update. simpl. split; [tauto|]. intros [I|[<-|I]]; auto.
      * unfold inStep. cbn [accTypes accShape accOccurrences]. rewrite keys_types_update, keys_occurrences_update. repeat split; auto.
        destruct (takesRepresentative _ _); [|exact Es].
        rewrite keys_objSet_existing; [exact Es | rewrite Es; exact K].
    + split_bind H as valueType g1 Hv. discriminate H.
    + split_bind H as valueType g1 Hv.
      apply objGet_Absent_key in G as [K NP].
      assert (Fresh : objGet key (accShape acc) = Absent)
        by (apply objGet_fresh; [rewrite Es; exact K | exact NP]).
      rewrite Fresh in H. simpl takesRepresentative in H. cbv iota in H.
      assert (NotProto : key <> "__proto__") by (intros ->; discriminate NP).
      apply IH in H.
      * destruct H as [S' In']. split; [exact S'|]. intros x. rewrite In'. cbn [accTypes accShape accOccurrences].
        rewrite keys_types_update. simpl. split.
        -- intros [I|I]; [|auto]. apply keys_objSet_inv in I as [->|I]; auto.
        -- intros [I|[<-|I]]; auto; left;
             [apply keys_objSet, I | apply keys_objSet_new, NotProto].
      * unfold inStep. cbn [accTypes accShape accOccurrences]. rewrite keys_types_update, keys_occurrences_update. repeat split.
        -- apply keys_objSet_congr, Es.
        -- apply keys_objSet_congr, Eo.
        -- apply Forall_forall. intros x I. apply keys_objSet_inv in I as [->|I];
             [exact NP | rewrite Forall_forall in P; apply P, I].
Qed.

Lemma mergeObjects_inStep generateArrayType generateObjectType objects :
  forall acc g acc' g',
    inStep acc ->
    mergeObjects generateArrayType generateObjectType objects acc g = Ok (acc', g') ->
    inStep acc'
    /\ (forall x, In x (keys (accTypes acc')) <->
                  In x (keys (accTypes acc))
                  \/ exists obj, In obj objects /\ In x (keys obj)).
Proof.
  induction objects as [|obj rest IH]; intros acc g acc' g' S H; simpl in H.
  - inv_ret H. split; [exact S|]. intros x. split; [auto | intros [I|(o & [] & _)]; exact I].
  - split_bind H as seen g1 Hs. destruct seen as [seenKeys acc1].
    apply mergeEntries_inStep in Hs as [S1 In1]; [|exact S].
    apply IH in H.
    + destruct H as [S' In']. split; [exact S'|]. intros x. rewrite In'. cbn [accTypes accShape accOccurrences].
      rewrite keys_markMissing, In1. split.
      * intros [[I|I]|(o & Io & I)].
        -- left. exact I.
        -- right. exists obj. split; [left; reflexivity | exact I].
        -- right. exists o. split; [right; exact Io | exact I].
      * intros [I|(o & [<-|Io] & I)].
        -- left. left. exact I.
        -- left. right. exact I.
        -- right. exists o. split; assumption.
    + destruct S1 as (Es & Eo & P). unfold inStep. cbn [accTypes accShape accOccurrences].
      rewrite keys_markMissing. repeat split; auto.
Qed.

(** X14.  What [mergeObjectsWithUnionTypes] returns has, for the
    representative shape and for the sets of types, the same keys in the
    same order: exactly the keys that occur in the objects merged, none of
    which is the name of a member of [Object.prototype]. *)
Theorem merged_shape_keys (localeCompare : string -> string -> Z)
        fuel objects g mergedShape g' :
  mergeObjectsWithUnionTypes localeCompare fuel objects g = Ok (mergedShape, g') ->
  keys (shape mergedShape) = keys (propertyTypes mergedShape)
  /\ (forall key, In key (keys (shape mergedShape)) <->
                  exists obj, In obj objects /\ In key (keys obj))
  /\ Forall (fun key => includes protoKeys key = false) (keys (shape mergedShape)).
Proof.
  intros H. destruct fuel as [|f]; [discriminate|].
  rewrite mergeObjectsWithUnionTypes_unfold in H.
  split_bind H as acc g1 Hacc. inv_ret H.
  apply mergeObjects_inStep in Hacc as [(Es & Eo & P) In'].
  - rewrite keys_finishMerge. simpl shape. split; [exact Es|]. rewrite Es. split; [|exact P].
    intros key. rewrite In'. simpl. split; [intros [[]|I]; exact I | auto].
  - repeat split; constructor.
Qed.

Lemma merged_shape_keys_witness :
  keys [("a", one); ("b", JNumber 2)] = keys [("a", ["number"; "string"]); ("b", ["number"; "missing"])]
  /\ (forall key, In key (keys [("a", one); ("b", JNumber 2)]) <->
                  exists obj,
                    In obj [ [("a", one)]; [("a", JString "x"); ("b", JNumber 2)] ]
                    /\ In key (keys obj))
  /\ Forall (fun key => includes protoKeys key = false) (keys [("a", one); ("b", JNumber 2)]).
Proof.
  apply (merged_shape_keys codeUnitCompare 1
           [ [("a", one)]; [("a", JString "x"); ("b", JNumber 2)] ] cleared
           {| shape := [("a", one); ("b", JNumber 2)];
              propertyTypes := [("a", ["number"; "string"]); ("b", ["number"; "missing"])] |}
           cleared).
  vm_compute. reflexivity.
Defined.

(** ** The missing marker *)

Lemma assoc_mapSet {V} (x k : string) (v : V) (o : list (string * V)) :
  assoc x (mapSet k v o) = if String.eqb k x then Some v else assoc x o.
Proof.
  induction o as [|[k' v'] r IH]; simpl; [reflexivity|].
  destruct (String.eqb k' k) eqn:E; simpl.
  - apply String.eqb_eq in E. subst k'. destruct (String.eqb k x); reflexivity.
  - rewrite IH. destruct (String.eqb k' x) eqn:E'; [|reflexivity].
    apply String.eqb_eq in E'. subst x. rewrite String.eqb_sym, E. reflexivity.
Qed.

Lemma assoc_fresh_cons {V} (x k : string) (v : V) (o : list (string * V)) :
  assoc x ((k, v) :: o) = if String.eqb k x then Some v else assoc x o.
Proof. reflexivity. Qed.

Lemma assoc_objInsertIndex {V} (x : string) (i : N) (k : string) (v : V) (o : jsobj V) :
  ~ In k (keys o) ->
  assoc x (objInsertIndex i k v o) = if String.eqb k x then Some v else assoc x o.
Proof.
  induction o as [|[k' v'] r IH]; intros F; simpl; [reflexivity|].
  destruct (arrayIndex k') as [j|]; [destruct (j <? i)%N|]; try reflexivity.
  simpl. rewrite IH by (intros I; apply F; right; exact I).
  destruct (String.eqb k' x) eqn:E'; [|reflexivity].
  destruct (String.eqb k x) eqn:E; [|reflexivity].
  apply String.eqb_eq in E, E'. subst. exfalso. apply F. left. reflexivity.
Qed.

Lemma assoc_app_fresh {V} (x k : string) (v : V) (o : list (string * V)) :
  ~ In k (keys o) ->
  assoc x (o ++ [(k, v)]) = if String.eqb k x then Some v else assoc x o.
Proof.
  induction o as [|[k' v'] r IH]; intros F; simpl; [reflexivity|].
  rewrite IH by (intros I; apply F; right; exact I).
  destruct (String.eqb k' x) eqn:E'; [|reflexivity].
  destruct (String.eqb k x) eqn:E; [|reflexivity].
  apply String.eqb_eq in E, E'. subst. exfalso. apply F. left. reflexivity.
Qed.

Lemma occurrences_init (x k : string) (o : jsobj nat) :
  occurrencesOf x (objSet k 0 o) <= occurrencesOf x o.
Proof.
  unfold occurrencesOf, objSet. destruct (String.eqb k "__proto__"); [lia|].
  rewrite mapHas_keys. destruct (includes (keys o) k) eqn:I.
  - rewrite assoc_mapSet. destruct (String.eqb k x); lia.
  - assert (F : ~ In k (keys o)) by (rewrite <- includes_In, I; discriminate).
    destruct (arrayIndex k);
      [rewrite assoc_objInsertIndex by exact F | rewrite assoc_app_fresh by exact F];
      destruct (String.eqb k x); lia.
Qed.

Lemma occurrences_increment (x k : string) (o : jsobj nat) :
  occurrencesOf x match assoc k o with Some n => mapSet k (S n) o | None => o end
  <= occurrencesOf x o + (if String.eqb k x then 1 else 0).
Proof.
  unfold occurrencesOf. destruct (assoc k o) as [n|] eqn:E; [|lia].
  rewrite assoc_mapSet. destruct (String.eqb k x) eqn:Q; [|lia].
  apply String.eqb_eq in Q. subst. rewrite E. lia.
Qed.

Lemma mergeEntries_occurrences generateArrayType generateObjectType entries :
  NoDup (keys entries) ->
  forall seenKeys acc g seen acc' g',
    mergeEntries generateArrayType generateObjectType entries seenKeys acc g
    = Ok ((seen, acc'), g') ->
    forall x,
      occurrencesOf x (accOccurrences acc')
      <= occurrencesOf x (accOccurrences acc) + (if includes (keys entries) x then 1 else 0).
Proof.
  induction entries as [|[key value] rest IH]; intros N seenKeys acc g seen acc' g' H x.
  - simpl in H. inv_ret H. lia.
  - simpl in N. inversion N as [|? ? Fresh N']. subst.
    simpl in H.
    assert (Here : (if includes (keys ((key, value) :: rest)) x then 1 else 0)
                   >= (if String.eqb key x then 1 else 0)
                      + (if includes (keys rest) x then 1 else 0)).
    { simpl. unfold includes at 1. simpl. fold (includes (keys rest) x).
      rewrite (String.eqb_sym x key).
      destruct (String.eqb key x) eqn:Q; simpl; [|lia].
      apply String.eqb_eq in Q. subst.
      destruct (includes (keys rest) x) eqn:I; [|lia].
      apply includes_In in I. contradiction. }
    destruct (objGet key (accTypes acc)).
    + split_bind H as valueType g1 Hv. apply IH with (x := x) in H; [|exact N'].
      cbv beta iota zeta in H. cbn [accOccurrences] in H.
      pose proof (occurrences_increment x key (accOccurrences acc)) as Inc.
      eapply Nat.le_trans; [exact H|]. eapply Nat.le_trans; [|apply Nat.add_le_mono_l, Here].
      rewrite Nat.add_assoc. apply Nat.add_le_mono_r, Inc.
    + split_bind H as valueType g1 Hv. discriminate H.
    + split_bind H as valueType g1 Hv. apply IH with (x := x) in H; [|exact N'].
      cbv beta iota zeta in H. cbn [accOccurrences] in H.
      pose proof (occurrences_increment x key (objSet key 0 (accOccurrences acc))) as Inc.
      pose proof (occurrences_init x key (accOccurrences acc)) as Init.
      eapply Nat.le_trans; [exact H|]. eapply Nat.le_trans; [|apply Nat.add_le_mono_l, Here].
      rewrite Nat.add_assoc. apply Nat.add_le_mono_r.
      eapply Nat.le_trans; [exact Inc|]. apply Nat.add_le_mono_r, Init.
Qed.

Lemma mergeObjects_occurrences generateArrayType generateObjectType objects :
  (forall obj, In obj objects -> NoDup (keys obj)) ->
  forall acc g acc' g',
    mergeObjects generateArrayType generateObjectType objects acc g = Ok (acc', g') ->
    forall x,
      occurrencesOf x (accOccurrences acc')
      <= occurrencesOf x (accOccurrences acc) + countHaving x objects.
Proof.
  induction objects as [|obj rest IH]; intros N acc g acc' g' H x; simpl in H.
  - inv_ret H. unfold countHaving. simpl. lia.
  - split_bind H as seen g1 Hs. destruct seen as [seenKeys acc1].
    apply mergeEntries_occurrences with (x := x) in Hs; [|apply N; left; reflexivity].
    apply IH with (x := x) in H; [|intros o I; apply N; right; exact I].
    cbn [accOccurrences] in H.
    unfold countHaving in *. simpl. unfold hasKey at 1.
    destruct (includes (keys obj) x); simpl; lia.
Qed.

Lemma filter_length_lt {A} (f : A -> bool) (x : A) (l : list A) :
  In x l -> f x = false -> List.length (filter f l) < List.length l.
Proof.
  induction l as [|y r IH]; simpl; [tauto|].
  intros [->|I] F.
  - rewrite F. pose proof (filter_length_le f r). lia.
  - specialize (IH I F). destruct (f y); simpl; lia.
Qed.

Lemma assoc_map_values {V W} (f : string -> V -> W) (k : string) (l : list (string * V)) :
  assoc k (map (fun '(key, v) => (key, f key v)) l) = option_map (f k) (assoc k l).
Proof.
  induction l as [|[k' v] r IH]; simpl; [reflexivity|].
  destruct (String.eqb k' k) eqn:E; [|exact IH].
  apply String.eqb_eq in E. subst. reflexivity.
Qed.

Lemma dropUnknownArray_keeps_missing (set : list string) :
  In "missing" set -> In "missing" (dropUnknownArray set).
Proof.
  intros I. unfold dropUnknownArray. destruct (_ && _); [|exact I].
  apply In_setDelete. split; [exact I | discriminate].
Qed.

Lemma mergedField_missing_optional (set : list string) :
  In "missing" set -> ~ In "null" set -> snd (mergedField set) = true.
Proof.
  intros Hm Hn. unfold mergedField.
  assert (O : includes set "undefined" || includes set "missing" = true).
  { apply orb_true_iff. right. apply includes_In, Hm. }
  rewrite O. set (actual0 := filter notMarker set).
  assert (N0 : forall l, incl l actual0 -> hasNull l = false).
  { intros l Sub. destruct (hasNull l) eqn:E; [|reflexivity]. exfalso. apply Hn.
    apply hasNull_In, Sub, filter_In in E. tauto. }
  destruct (Nat.ltb 1 (List.length (filter isArrayType actual0))
            && includes (filter isArrayType actual0) "unknown[]").
  - rewrite N0 by (intros x Hx; eapply removeFirst_subset, Hx).
    simpl. destruct (negb _); reflexivity.
  - rewrite N0 by apply incl_refl. simpl. destruct (negb _); reflexivity.
Qed.

(** X15.  When the objects merged have distinct keys each, a key that some
    object lacks carries the missing marker in its set of types; the field
    derived from the set is then optional, unless the set holds [null]. *)
Theorem absent_key_marked_missing (localeCompare : string -> string -> Z)
        fuel objects g mergedShape g' obj key :
  mergeObjectsWithUnionTypes localeCompare fuel objects g = Ok (mergedShape, g') ->
  (forall o, In o objects -> NoDup (keys o)) ->
  In obj objects -> ~ In key (keys obj) ->
  In key (keys (shape mergedShape)) ->
  exists set,
    assoc key (propertyTypes mergedShape) = Some set
    /\ In "missing" set
    /\ (In "null" set \/ snd (mergedField set) = true).
Proof.
  intros H N Io Lacks Known.
  destruct (merged_keys_own _ _ _ _ _ _ H key Known) as (set & Eset).
  exists set. split; [exact Eset|].
  assert (Marked : In "missing" set).
  { destruct fuel as [|f]; [discriminate|].
    rewrite mergeObjectsWithUnionTypes_unfold in H.
    split_bind H as acc g1 Hacc. inv_ret H.
    apply mergeObjects_occurrences with (x := key) in Hacc; [|exact N].
    unfold occurrencesOf at 2 in Hacc. simpl in Hacc.
    assert (Fewer : countHaving key objects < List.length objects).
    { apply filter_length_lt with (x := obj); [exact Io|].
      unfold hasKey. destruct (includes (keys obj) key) eqn:I; [|reflexivity].
      apply includes_In in I. contradiction. }
    unfold finishMerge in Eset. cbn [propertyTypes] in Eset.
    rewrite (assoc_map_values (fun _ s => dropUnknownArray s)) in Eset.
    unfold markMissing in Eset.
    rewrite (assoc_map_values
               (fun key s => if Nat.ltb
                                  match assoc key (accOccurrences acc) with
                                  | Some n => n
                                  | None => 0
                                  end (List.length objects)
                             then setAdd "missing" s else s)) in Eset.
    destruct (assoc key (accTypes acc)) as [s0|]; [|discriminate Eset].
    simpl in Eset. inversion Eset as [E]. clear Eset E.
    apply dropUnknownArray_keeps_missing.
    fold (occurrencesOf key (accOccurrences acc)).
    assert (L : Nat.ltb (occurrencesOf key (accOccurrences acc)) (List.length objects) = true)
      by (apply Nat.ltb_lt; lia).
    rewrite L. apply In_setAdd. left. reflexivity. }
  split; [exact Marked|].
  destruct (in_dec string_dec "null" set) as [I|I]; [left; exact I|].
  right. apply mergedField_missing_optional; assumption.
Qed.

Lemma absent_key_marked_missing_witness :
  exists set,
    assoc "b" [("a", ["number"; "string"]); ("b", ["number"; "missing"])] = Some set
    /\ In "missing" set
    /\ (In "null" set \/ snd (mergedField set) = true).
Proof.
  apply (absent_key_marked_missing codeUnitCompare 1
           [ [("a", one)]; [("a", JString "x"); ("b", JNumber 2)] ] cleared
           {| shape := [("a", one); ("b", JNumber 2)];
              propertyTypes := [("a", ["number"; "string"]); ("b", ["number"; "missing"])] |}
           cleared [("a", one)] "b").
  - vm_compute. reflexivity.
  - intros o [<-|[<-|[]]]; repeat constructor; simpl; intuition discriminate.
  - left. reflexivity.
  - simpl. intros [E|[]]. discriminate E.
  - simpl. right. left. reflexivity.
Defined.

(** ** Safe keys never raise *)



















Section Safety.

Variable localeCompare : string -> string -> Z.





End Safety.


(** ** Unions are read back as they were written *)


Lemma forallb_rev {A} (p : A -> bool) (l : list A) :
  forallb p l = true -> forallb p (rev l) = true.
Proof.
  rewrite !forallb_forall. intros H x I. apply H, in_rev, I.
Qed.




Lemma truthy_ofChars (c : ascii) (r : list ascii) : truthy (ofChars (c :: r)) = true.
Proof. reflexivity. Qed.








(** ** The text of a definition is read back *)























Lemma split_nonempty (sep : ascii) (s : string) : split sep s <> [].
Proof.
  induction s as [|c r IH]; simpl; [discriminate|].
  destruct (Ascii.eqb c sep); [discriminate|]. destruct (split sep r); discriminate.
Qed.

Lemma split_app_sep (sep : ascii) (a b : string) :
  split sep (a ++ String sep b) = (split sep a ++ split sep b)%list.
Proof.
  induction a as [|c r IH]; simpl.
  - rewrite Ascii.eqb_refl. reflexivity.
  - destruct (Ascii.eqb c sep); [rewrite IH; reflexivity|].
    rewrite IH. destruct (split sep r) as [|h t] eqn:E; [|reflexivity].
    destruct (split_nonempty sep r E).
Qed.

Lemma split_free (sep : ascii) (s : string) :
  forallb (fun c => negb (Ascii.eqb c sep)) (chars s) = true -> split sep s = [s].
Proof.
  induction s as [|c r IH]; [reflexivity|].
  change (chars (String c r)) with (c :: chars r). cbn [forallb]. intros H.
  apply andb_true_iff in H as [Hc Hr]. apply negb_true_iff in Hc.
  simpl. rewrite Hc, IH by exact Hr. reflexivity.
Qed.


Lemma split_join (lines : list string) :
  lines <> [] ->
  Forall (fun line => forallb (fun c => negb (Ascii.eqb c (ch nl))) (chars line) = true) lines ->
  split (ch nl) (join nl lines) = lines.
Proof.
  induction lines as [|l rest IH]; intros N F; [contradiction|].
  inversion F as [|? ? Fl Frest]. subst.
  destruct rest as [|l' rest]; [apply split_free, Fl|].
  change (join nl (l :: l' :: rest)) with (l ++ String (ch nl) (join nl (l' :: rest))).
  rewrite split_app_sep, split_free by exact Fl.
  rewrite IH; [reflexivity | discriminate | exact Frest].
Qed.


Lemma length_chars (s : string) : String.length s = List.length (chars s).
Proof. induction s as [|c r IH]; simpl; [reflexivity | rewrite IH; reflexivity]. Qed.










(** ** The keys of a structure string *)

Lemma split_join_sep (sep : ascii) (parts : list string) :
  parts <> [] ->
  Forall (fun part => forallb (fun c => negb (Ascii.eqb c sep)) (chars part) = true) parts ->
  split sep (join (String sep "") parts) = parts.
Proof.
  induction parts as [|p rest IH]; intros N F; [contradiction|].
  inversion F as [|? ? Fp Frest]. subst.
  destruct rest as [|p' rest]; [apply split_free, Fp|].
  change (join (String sep "") (p :: p' :: rest))
    with (p ++ String sep (join (String sep "") (p' :: rest))).
  rewrite split_app_sep, split_free by exact Fp.
  rewrite IH; [reflexivity | discriminate | exact Frest].
Qed.

Lemma getSimpleType_plain :
  forall value, isJson value = true ->
    truthy (getSimpleType value) = true
    /\ forallb (fun c => negb (isChar ":" c || isChar ";" c)) (chars (getSimpleType value))
       = true.
Proof.
  fix IH 1. intros [| |b|n|s|items|entries|t] J; try discriminate J;
    try (split; reflexivity).
  destruct items as [|first rest]; [split; reflexivity|].
  simpl in J. apply andb_true_iff in J as [J _]. destruct (IH first J) as [T F].
  change (getSimpleType (JArray (first :: rest))) with (getSimpleType first ++ "[]").
  split; [apply truthy_append, T|]. rewrite chars_append, forallb_app, F. reflexivity.
Qed.

Lemma fold_objSet_keys {V} (kts : list (string * V)) :
  Forall (fun kt => fst kt <> "__proto__") kts ->
  forall acc k,
    In k (keys (fold_left (fun o kt => objSet (fst kt) (snd kt) o) kts acc))
    <-> In k (keys acc) \/ In k (map fst kts).
Proof.
  induction kts as [|[key v] rest IH]; intros F acc k.
  - simpl. tauto.
  - inversion F as [|? ? Fk Frest]. subst. cbn [fold_left map fst snd].
    rewrite IH by exact Frest. cbn [fst] in Fk. split.
    + intros [I|I]; [|right; right; exact I].
      apply keys_objSet_inv in I as [->|I]; [right; left; reflexivity | left; exact I].
    + intros [I|[<-|I]]; [left; apply keys_objSet, I | left; apply keys_objSet_new, Fk
                         | right; exact I].
Qed.

Lemma part_reads (key type : string) (acc : jsobj string) :
  truthy key = true -> truthy type = true ->
  forallb (fun c => negb (isChar ":" c || isChar ";" c)) (chars key) = true ->
  forallb (fun c => negb (isChar ":" c || isChar ";" c)) (chars type) = true ->
  match split (ch ":") (key ++ ":" ++ type) with
  | k :: t :: _ => if truthy k && truthy t then objSet k t acc else acc
  | _ => acc
  end = objSet key type acc.
Proof.
  intros Tk Tt Fk Ft.
  assert (Free : forall s,
             forallb (fun c => negb (isChar ":" c || isChar ";" c)) (chars s) = true ->
             forallb (fun c => negb (Ascii.eqb c (ch ":"))) (chars s) = true).
  { intros s F. rewrite forallb_forall in F. apply forallb_forall. intros c I.
    specialize (F c I). apply negb_true_iff, orb_false_iff in F as [F _].
    apply negb_true_iff. rewrite Ascii.eqb_sym. exact F. }
  change (key ++ ":" ++ type) with (key ++ String (ch ":") type).
  rewrite split_app_sep, !split_free by auto. cbn [app]. rewrite Tk, Tt. reflexivity.
Qed.

Lemma parts_read (kts : list (string * string)) :
  Forall (fun kt => truthy (fst kt) = true /\ truthy (snd kt) = true
                    /\ forallb (fun c => negb (isChar ":" c || isChar ";" c)) (chars (fst kt))
                       = true
                    /\ forallb (fun c => negb (isChar ":" c || isChar ";" c)) (chars (snd kt))
                       = true) kts ->
  forall acc,
    fold_left (fun props part =>
                 match split (ch ":") part with
                 | key :: type :: _ =>
                     if truthy key && truthy type then objSet key type props else props
                 | _ => props
                 end)
              (map (fun kt => fst kt ++ ":" ++ snd kt) kts) acc
    = fold_left (fun o kt => objSet (fst kt) (snd kt) o) kts acc.
Proof.
  induction kts as [|[key type] rest IH]; intros F acc; [reflexivity|].
  inversion F as [|? ? (Tk & Tt & Fk & Ft) Frest]. subst.
  cbn [map fold_left fst snd] in *. rewrite part_reads by assumption. apply IH, Frest.
Qed.

(** X19.  The structure string carries the keys: for a JSON object whose
    keys are not empty, hold no colon or semicolon and are not [__proto__],
    [parseStructure] finds in the object's structure string exactly the
    object's keys, which is what [findSimilarInterface] compares. *)
Theorem parseStructure_reads_keys (obj : list (string * jsvalue)) :
  isJson (JObject obj) = true ->
  forallb structureKey (keys obj) = true ->
  forall key,
    In key (keys (parseStructure (generateInterfaceStructure obj None))) <-> In key (keys obj).
Proof.
  intros J K key.
  destruct obj as [|entry others] eqn:Eobj; [simpl; tauto|]. rewrite <- Eobj in *.
  set (kts := map (fun '(k, value) => (k, getSimpleType value)) obj).
  assert (Parts : map (fun '(k, value) => k ++ ":" ++ structureType None k value) obj
                  = map (fun kt => fst kt ++ ":" ++ snd kt) kts).
  { unfold kts. rewrite map_map. apply map_ext. intros [k value]. reflexivity. }
  assert (Good : Forall (fun kt =>
                   (truthy (fst kt) = true /\ truthy (snd kt) = true
                    /\ forallb (fun c => negb (isChar ":" c || isChar ";" c)) (chars (fst kt))
                       = true
                    /\ forallb (fun c => negb (isChar ":" c || isChar ";" c)) (chars (snd kt))
                       = true)
                   /\ fst kt <> "__proto__") kts).
  { apply Forall_forall. intros [k t] I. unfold kts in I.
    apply in_map_iff in I as ([k' value] & E & I). inversion E. subst k' t. cbn [fst snd].
    assert (Jv : isJson value = true).
    { simpl in J. apply andb_true_iff in J as [J _]. rewrite forallb_forall in J.
      apply (J _ I). }
    destruct (getSimpleType_plain value Jv) as [T F].
    rewrite forallb_forall in K.
    assert (Ik : In k (keys obj)) by (apply in_map_iff; exists (k, value); auto).
    specialize (K k Ik). unfold structureKey in K.
    apply andb_true_iff in K as [K Fk]. apply andb_true_iff in K as [Tk Nk].
    apply negb_true_iff, String.eqb_neq in Nk. auto. }
  unfold generateInterfaceStructure. rewrite Parts.
  destruct (Permutation_map_inv (fun kt : string * string => fst kt ++ ":" ++ snd kt) kts
              (sortBy_is_Permutation codeUnitCompare _)) as (sorted & Es & P).
  fold (sort (map (fun kt : string * string => fst kt ++ ":" ++ snd kt) kts)) in Es.
  assert (GoodSorted : Forall (fun kt =>
                   (truthy (fst kt) = true /\ truthy (snd kt) = true
                    /\ forallb (fun c => negb (isChar ":" c || isChar ";" c)) (chars (fst kt))
                       = true
                    /\ forallb (fun c => negb (isChar ":" c || isChar ";" c)) (chars (snd kt))
                       = true)
                   /\ fst kt <> "__proto__") sorted).
  { rewrite Forall_forall in *. intros kt I. apply Good.
    eapply Permutation_in; [symmetry; exact P | exact I]. }
  unfold parseStructure. rewrite Es.
  change ";" with (String (ch ";") "") at 1. rewrite split_join_sep.
  - rewrite parts_read by (eapply Forall_impl; [|exact GoodSorted]; cbv beta; tauto).
    rewrite fold_objSet_keys by (eapply Forall_impl; [|exact GoodSorted]; cbv beta; tauto).
    cbn [keys In]. unfold keys at 1.
    assert (Ek : keys obj = map fst kts).
    { unfold kts, keys. rewrite map_map. apply map_ext. intros [k value]. reflexivity. }
    rewrite Ek. split.
    + intros [[]|I]. eapply Permutation_in; [apply Permutation_map; symmetry; exact P | exact I].
    + intros I. right. eapply Permutation_in; [apply Permutation_map; exact P | exact I].
  - intros Empty. apply map_eq_nil in Empty. subst sorted.
    apply Permutation_sym, Permutation_nil in P. unfold kts in P. rewrite Eobj in P.
    discriminate P.
  - apply Forall_forall. intros part I. apply in_map_iff in I as (kt & <- & I).
    rewrite Forall_forall in GoodSorted. destruct (GoodSorted kt I) as ((_ & _ & Fk & Ft) & _).
    assert (Free : forall s,
               forallb (fun c => negb (isChar ":" c || isChar ";" c)) (chars s) = true ->
               forallb (fun c => negb (Ascii.eqb c (ch ";"))) (chars s) = true).
    { intros s F. rewrite forallb_forall in F. apply forallb_forall. intros c Ic.
      specialize (F c Ic). apply negb_true_iff, orb_false_iff in F as [_ F].
      apply negb_true_iff. rewrite Ascii.eqb_sym. exact F. }
    cbv beta. rewrite !chars_append, !forallb_app.
    change (ch ";") with ";"%char in Free. rewrite (Free _ Fk), (Free _ Ft). reflexivity.
Qed.

Lemma parseStructure_reads_keys_witness :
  isJson (JObject [("b", JNull); ("a", JArray [one])]) = true
  /\ forallb structureKey (keys [("b", JNull); ("a", JArray [one])]) = true
  /\ (In "a" (keys (parseStructure
                      (generateInterfaceStructure [("b", JNull); ("a", JArray [one])] None)))
      <-> In "a" (keys [("b", JNull); ("a", JArray [one])])).
Proof.
  split; [reflexivity|]. split; [reflexivity|].
  apply (parseStructure_reads_keys [("b", JNull); ("a", JArray [one])]); reflexivity.
Defined.

(** ** Formatting *)

Lemma split_sep_free (sep : ascii) (s piece : string) :
  In piece (split sep s) ->
  forallb (fun c => negb (Ascii.eqb c sep)) (chars piece) = true.
Proof.
  revert piece. induction s as [|d r IH]; intros piece I.
  - simpl in I. destruct I as [<-|[]]. reflexivity.
  - simpl in I. destruct (Ascii.eqb d sep) eqn:D.
    + destruct I as [<-|I]; [reflexivity | apply IH, I].
    + destruct (split sep r) as [|h t] eqn:E; [destruct (split_nonempty sep r E)|].
      destruct I as [<-|I].
      * change (chars (String d h)) with (d :: chars h). cbn [forallb]. rewrite D.
        apply IH. left. reflexivity.
      * apply IH. right. exact I.
Qed.

Lemma dropWhile_idempotent {A} (p : A -> bool) (l : list A) :
  dropWhile p (dropWhile p l) = dropWhile p l.
Proof.
  induction l as [|x r IH]; [reflexivity|]. simpl. destruct (p x) eqn:E; [exact IH|].
  simpl. rewrite E. reflexivity.
Qed.

Lemma dropWhile_forallb {A} (p q : A -> bool) (l : list A) :
  forallb q l = true -> forallb q (dropWhile p l) = true.
Proof.
  induction l as [|x r IH]; [reflexivity|]. simpl. intros H.
  apply andb_true_iff in H as [Hx Hr]. destruct (p x); [apply IH, Hr|].
  simpl. rewrite Hx, Hr. reflexivity.
Qed.

Lemma trimEnd_idempotent (s : string) : trimEnd (trimEnd s) = trimEnd s.
Proof.
  unfold trimEnd. rewrite chars_ofChars, rev_involutive, dropWhile_idempotent. reflexivity.
Qed.

Lemma trimEnd_one_line (s : string) :
  forallb (fun c => negb (Ascii.eqb c (ch nl))) (chars s) = true ->
  forallb (fun c => negb (Ascii.eqb c (ch nl))) (chars (trimEnd s)) = true.
Proof.
  intros H. unfold trimEnd. rewrite chars_ofChars.
  apply forallb_rev, dropWhile_forallb, forallb_rev, H.
Qed.

(** X20.  [formatCode] is idempotent: formatting a text that is already
    formatted changes nothing. *)
Theorem formatCode_idempotent (code : string) :
  formatCode (formatCode code) = formatCode code.
Proof.
  unfold formatCode. rewrite split_join.
  - rewrite map_map. f_equal. apply map_ext. intros line. apply trimEnd_idempotent.
  - intros E. apply map_eq_nil in E. exact (split_nonempty _ _ E).
  - apply Forall_forall. intros line I. apply in_map_iff in I as (piece & <- & I).
    apply trimEnd_one_line, (split_sep_free _ _ _ I).
Qed.

(** ** The name of a child *)

Lemma isPrefix_length (p l : list ascii) :
  isPrefix p l = true -> List.length p <= List.length l.
Proof.
  revert l. induction p as [|a p IH]; intros l H; simpl; [lia|].
  destruct l as [|b l]; [discriminate H|]. simpl in H.
  apply andb_true_iff in H as [_ H]. apply IH in H. simpl. lia.
Qed.

Lemma endsWith_length (s suffix : string) :
  endsWith s suffix = true -> String.length suffix <= String.length s.
Proof.
  unfold endsWith. intros H. apply isPrefix_length in H.
  rewrite !length_rev in H. rewrite !length_chars. exact H.
Qed.

Lemma sliceEnd_truthy (s : string) (n : nat) :
  n < String.length s -> truthy (sliceEnd s n) = true.
Proof.
  intros L. unfold sliceEnd. rewrite length_chars in *.
  destruct (chars s) as [|c r]; [simpl in L; lia|].
  destruct (List.length (c :: r) - n) as [|m] eqn:E; [lia|]. reflexivity.
Qed.

Lemma singularize_truthy (s : string) : truthy s = true -> truthy (singularize s) = true.
Proof.
  intros T. unfold singularize.
  destruct (endsWith s "s" && Nat.ltb 1 (String.length s)) eqn:E; [|exact T].
  apply andb_true_iff in E as [_ L]. apply Nat.ltb_lt in L.
  destruct (endsWith s "ies"); [destruct (sliceEnd s 3); reflexivity|].
  destruct (endsWith s "ouses") eqn:E1.
  { apply endsWith_length in E1. simpl in E1. apply sliceEnd_truthy. lia. }
  destruct (endsWith s "ses" || endsWith s "xes" || endsWith s "zes") eqn:E2.
  { apply sliceEnd_truthy. apply orb_true_iff in E2 as [E2|E2];
      [apply orb_true_iff in E2 as [E2|E2]|]; apply endsWith_length in E2; simpl in E2; lia. }
  destruct (endsWith s "ches" || endsWith s "shes") eqn:E3.
  { apply sliceEnd_truthy. apply orb_true_iff in E3 as [E3|E3];
      apply endsWith_length in E3; simpl in E3; lia. }
  destruct (negb (endsWith s "ss")); [apply sliceEnd_truthy; lia | exact T].
Qed.

Lemma assoc_In_values {V} (k : string) (l : list (string * V)) (v : V) :
  assoc k l = Some v -> In v (map snd l).
Proof.
  induction l as [|[k' v'] r IH]; simpl; [discriminate|].
  destruct (String.eqb k' k); [intros H; inversion H; auto | auto].
Qed.

(** X21.  The child of a key that is not empty is named after the key: the
    hint that [generateCleanChildName] makes of it is truthy, so that
    [generateObjectType] keeps it and never falls back on the generic name. *)
Theorem child_named_after_key (key : string) :
  truthy key = true ->
  interfaceNameOf (generateCleanChildName key) = Ok (generateCleanChildName key).
Proof.
  intros T. unfold generateCleanChildName.
  destruct (assoc (toLowerCase key) commonMappings) as [mapped|] eqn:E.
  - apply assoc_In_values in E.
    assert (M : truthy mapped = true).
    { assert (All : forallb truthy (map snd commonMappings) = true) by reflexivity.
      rewrite forallb_forall in All. apply All, E. }
    simpl. rewrite M. reflexivity.
  - destruct (includes protoKeys (toLowerCase key)); [reflexivity|].
    simpl. rewrite singularize_truthy; [reflexivity|].
    destruct key; [discriminate T | reflexivity].
Qed.

Lemma child_named_after_key_witness :
  truthy "categories" = true
  /\ interfaceNameOf (generateCleanChildName "categories") = Ok (Name "Category").
Proof.
  split; [reflexivity|]. apply (child_named_after_key "categories"). reflexivity.
Defined.
